(** * Ganesh live collage: the layout packers

    A shallow embedding of the layout code of the three variants of the
    collage application:

    - [FixedGrid]  : src/unnamed/part_000 (step table + row-major cells),
    - [Mosaic]     : src/unnamed/part_001 (responsive grid + multi-span mosaic),
    - [SquareGrid] : src/src/App.jsx      (square grid + truncating export).

    JavaScript numbers that hold photo counts, indices, rows and columns are
    integers, modelled as [Z].  The three places where the code multiplies by
    a decimal constant ([photoCount * 1.2], [photoCount * 1.5],
    [gridSize * 0.6]) are evaluated in exact rational arithmetic; the results
    are only ever used under [Math.ceil (Math.sqrt _)] followed by a clamp, or
    under [Math.floor], and for every count an array length can take (below
    2^32) the double-precision values land on the same integer, as does
    [Math.ceil (Math.sqrt (photoCount))]. *)

From stdpp Require Import base numbers list strings pretty gmap sets.
From Stdlib Require Import ZArith QArith Qcanon Ascii Lia.

Local Open Scope Z_scope.

(** ** Arithmetic of the [Math] object on the values the code uses *)

(** [Math.ceil (p / q)] for integers [p] and [q > 0]. *)
Definition ceil_div (p q : Z) : Z := - ((- p) / q).

(** [Math.ceil (Math.sqrt (p / q))]: the least [n >= 0] with [p / q <= n * n]. *)
Definition ceil_sqrt_ratio (p q : Z) : Z := Z.sqrt_up (ceil_div p q).

(** [Math.ceil (Math.sqrt n)] for an integer [n]. *)
Definition ceil_sqrt (n : Z) : Z := Z.sqrt_up n.

(** [a || b] on numbers: [0] is the only falsy integer. *)
Definition num_or (a b : Z) : Z := if a =? 0 then b else a.

(** ** Binary64 addition

    A finite double is the rational it denotes.  [x + y] on doubles is the
    double nearest to the exact sum, ties going to the even significand;
    sums here stay far below 2^1024, so overflow to [Infinity] is left
    out. *)

(** The integer nearest to [p / q] for [q > 0], ties to the even one. *)
Definition round_div (p q : Z) : Z :=
  let n := p / q in
  let r := p `mod` q in
  match 2 * r ?= q with
  | Lt => n
  | Gt => n + 1
  | Eq => if Z.even n then n else n + 1
  end.

(** [floor (log2 (a / b))] for [a > 0] and [b > 0]. *)
Definition floor_log2 (a b : Z) : Z :=
  let e0 := Z.log2 a - Z.log2 b in
  if (if 0 <=? e0 then b * 2 ^ e0 <=? a else b <=? a * 2 ^ (- e0))
  then e0 else e0 - 1.

(** The double nearest to [a / b > 0]: a significand of 53 bits at the
    exponent of [a / b], which is at least -1022. *)
Definition round64_pos (a b : Z) : Q :=
  let e := Z.max (floor_log2 a b) (-1022) in
  if 52 <=? e
  then inject_Z (round_div a (b * 2 ^ (e - 52)) * 2 ^ (e - 52))
  else Qmake (round_div (a * 2 ^ (52 - e)) b) (Z.to_pos (2 ^ (52 - e))).

Definition round64 (x : Qc) : Qc :=
  match Qnum x with
  | Z0 => 0%Qc
  | Zpos a => Q2Qc (round64_pos (Zpos a) (Zpos (Qden x)))
  | Zneg a => (- Q2Qc (round64_pos (Zpos a) (Zpos (Qden x))))%Qc
  end.

(** [x + y] on doubles. *)
Definition fadd (x y : Qc) : Qc := round64 (x + y).

(** ** Photos and the photo collection

    An id is the JavaScript number [Date.now ()] or
    [Date.now () + Math.random ()], the sum being taken in binary64; the
    clock is an integer number of milliseconds (exact as a double below
    2^53) and the random source a double in [0, 1).  The fields [timestamp] and [aspectRatio] of the
    photos of part_000 and part_001 are display data and are left out;
    [orientation] is kept as computed from the decoded width and height. *)

Record Photo := mkPhoto {
  id : Qc;
  src : string;
  orientation : string;
  width : Z;
  height : Z
}.

Global Instance Photo_eq_dec : EqDecision Photo.
Proof. solve_decision. Defined.

(** [const orientation = aspectRatio > 1 ? 'landscape' : aspectRatio < 1 ?
    'portrait' : 'square'] with [aspectRatio = img.width / img.height]. *)
Definition orientation_of (w h : Z) : string :=
  if h <? w then "landscape" else if w <? h then "portrait" else "square".

(** [setPhotos (prev => prev.filter (photo => photo.id !== id))], the same
    in the three variants. *)
Definition removePhoto (i : Qc) (prev : list Photo) : list Photo :=
  filter (λ photo, id photo ≠ i) prev.

(** [setPhotos ([])]. *)
Definition clearAllPhotos (prev : list Photo) : list Photo := [].

(** ** The fixed step-table variant (src/unnamed/part_000) *)
Module FixedGrid.

Record LayoutConfig := mkConfig { rows : Z; cols : Z; type : string }.

Definition getLayoutConfig (photoCount : Z) : LayoutConfig :=
  if photoCount <=? 1 then mkConfig 1 1 "single"
  else if photoCount <=? 4 then mkConfig 2 2 "grid"
  else if photoCount <=? 6 then mkConfig 2 3 "grid"
  else if photoCount <=? 9 then mkConfig 3 3 "complex"
  else if photoCount <=? 12 then mkConfig 3 4 "complex"
  else if photoCount <=? 16 then mkConfig 4 4 "complex"
  else if photoCount <=? 20 then mkConfig 4 5 "ultra"
  else if photoCount <=? 25 then mkConfig 5 5 "ultra"
  else if photoCount <=? 30 then mkConfig 5 6 "mega"
  else if photoCount <=? 36 then mkConfig 6 6 "mega"
  else if photoCount <=? 42 then mkConfig 6 7 "extreme"
  else if photoCount <=? 49 then mkConfig 7 7 "extreme"
  else if photoCount <=? 56 then mkConfig 7 8 "insane"
  else if photoCount <=? 64 then mkConfig 8 8 "insane"
  else if photoCount <=? 81 then mkConfig 9 9 "infinite"
  else if photoCount <=? 100 then mkConfig 10 10 "infinite"
  else
    let gridSize := ceil_sqrt photoCount in
    mkConfig gridSize gridSize "infinite".

(** The value handed to the style attributes [gridRow] / [gridColumn]. *)
Record GridPosition := mkPos { row : string; col : string }.

(** [Math.floor (index / cols)] is [index / cols] and [index % cols] is the
    truncating remainder [Z.rem]; the template literals print the two
    numbers in decimal. *)
Definition getGridPosition (index : Z) (config : LayoutConfig)
    (orientation : string) : GridPosition :=
  if bool_decide (type config = "single") then mkPos "1" "1"
  else
    let row := index / cols config + 1 in
    let col := Z.rem index (cols config) + 1 in
    mkPos (pretty row) (pretty col).

(** Photos ingested by the webcam ([capturePhoto], [id: Date.now ()]) and
    by the file input ([handleFileUpload],
    [id: Date.now () + Math.random ()]). *)
Definition capturePhoto (now : Z) (imageSrc : string) (w h : Z)
    (prev : list Photo) : list Photo :=
  prev ++ [mkPhoto (Qc_of_Z now) imageSrc (orientation_of w h) w h].

Definition handleFileUpload_onload (now : Z) (rnd : Qc) (result : string)
    (w h : Z) (prev : list Photo) : list Photo :=
  prev ++ [mkPhoto (fadd (Qc_of_Z now) rnd) result (orientation_of w h) w h].

(** The events that change the photo collection during a session, with the
    clock reading [now] and the random draw [rnd] of each ingestion as
    inputs. *)
Inductive Event :=
  | Capture (now : Z) (imageSrc : string) (w h : Z)
  | Upload (now : Z) (rnd : Qc) (result : string) (w h : Z)
  | Remove (i : Qc)
  | Clear.

Definition step (prev : list Photo) (e : Event) : list Photo :=
  match e with
  | Capture now imageSrc w h => capturePhoto now imageSrc w h prev
  | Upload now rnd result w h => handleFileUpload_onload now rnd result w h prev
  | Remove i => removePhoto i prev
  | Clear => clearAllPhotos prev
  end.

(** [useState ([])] followed by the events of the session. *)
Definition run (events : list Event) : list Photo := foldl step [] events.

(** The id generated by an ingestion event. *)
Definition token (e : Event) : option Qc :=
  match e with
  | Capture now _ _ _ => Some (Qc_of_Z now)
  | Upload now rnd _ _ _ => Some (fadd (Qc_of_Z now) rnd)
  | Remove _ | Clear => None
  end.

(** The clock reading of an ingestion event. *)
Definition clock (e : Event) : option Z :=
  match e with
  | Capture now _ _ _ | Upload now _ _ _ _ => Some now
  | Remove _ | Clear => None
  end.

(** The inputs of an ingestion event are what the clock and the random
    source can deliver: a positive number of milliseconds below 2^53 and a
    draw in [0, 1). *)
Definition well_timed (e : Event) : Prop :=
  match e with
  | Capture now _ _ _ => 1 ≤ now ≤ 2 ^ 53 - 1
  | Upload now rnd _ _ _ => 1 ≤ now ≤ 2 ^ 53 - 1 ∧ (0 <= rnd)%Qc ∧ (rnd < 1)%Qc
  | Remove _ | Clear => True
  end.

End FixedGrid.

(** ** The square-grid variant (src/src/App.jsx) *)
Module SquareGrid.

(** [getGridSize], reading [photos.length]. *)
Definition getGridSize (photos : list Photo) : Z :=
  let photoCount := Z.of_nat (length photos) in
  if photoCount =? 1 then 1
  else if photoCount <=? 4 then 2
  else if photoCount <=? 9 then 3
  else if photoCount <=? 16 then 4
  else if photoCount <=? 25 then 5
  else 6.

(** [addPhoto]: photos of this variant carry only [id] and [src]; the
    remaining fields of the record are left at their defaults. *)
Definition addPhoto (now : Z) (rnd : Qc) (src : string)
    (prev : list Photo) : list Photo :=
  prev ++ [mkPhoto (fadd (Qc_of_Z now) rnd) src "" 0 0].

(** The children appended to the off-screen container by
    [downloadCollage]: [photos.forEach ((photo, index) => { if (index <
    gridSize * gridSize) ... appendChild ... })].  [None] is the early
    [return] on an empty collection. *)
Fixpoint forEach_append (gridSize : Z) (index : Z) (photos : list Photo)
    (container : list Photo) : list Photo :=
  match photos with
  | [] => container
  | photo :: rest =>
      forEach_append gridSize (index + 1) rest
        (if index <? gridSize * gridSize then container ++ [photo]
         else container)
  end.

Definition downloadCollage (photos : list Photo) : option (list Photo) :=
  if Z.of_nat (length photos) =? 0 then None
  else
    let gridSize := getGridSize photos in
    Some (forEach_append gridSize 0 photos []).

(** [getCollageLayout]: the class name of the collage container. *)
Definition getCollageLayout (photos : list Photo) : string :=
  let photoCount := Z.of_nat (length photos) in
  if photoCount =? 0 then "empty"
  else if photoCount =? 1 then "single"
  else if photoCount <=? 4 then "grid-2x2"
  else if photoCount <=? 9 then "grid-3x3"
  else if photoCount <=? 16 then "grid-4x4"
  else if photoCount <=? 25 then "grid-5x5"
  else "grid-6x6".

(** The side of a tile of the export, [imageSize] in [downloadCollage]:
    [Math.floor ((containerSize - 40 - (gridSize - 1) * 10) / gridSize)]
    with [containerSize = baseSize = 800]. *)
Definition imageSize (photos : list Photo) : Z :=
  let gridSize := getGridSize photos in
  let baseSize := 800 in
  let containerSize := baseSize in
  (containerSize - 40 - (gridSize - 1) * 10) / gridSize.

(** The events that change the photo collection during a session: camera
    captures and file reads both end in [addPhoto]. *)
Inductive Event :=
  | Add (now : Z) (rnd : Qc) (src : string)
  | Remove (i : Qc)
  | Clear.

Definition step (prev : list Photo) (e : Event) : list Photo :=
  match e with
  | Add now rnd src => addPhoto now rnd src prev
  | Remove i => removePhoto i prev
  | Clear => clearAllPhotos prev
  end.

Definition run (events : list Event) : list Photo := foldl step [] events.

Definition token (e : Event) : option Qc :=
  match e with
  | Add now rnd _ => Some (fadd (Qc_of_Z now) rnd)
  | Remove _ | Clear => None
  end.

Definition clock (e : Event) : option Z :=
  match e with
  | Add now _ _ => Some now
  | Remove _ | Clear => None
  end.

Definition well_timed (e : Event) : Prop :=
  match e with
  | Add now rnd _ => 1 ≤ now ≤ 2 ^ 53 - 1 ∧ (0 <= rnd)%Qc ∧ (rnd < 1)%Qc
  | Remove _ | Clear => True
  end.

End SquareGrid.

(** A collection of forty photos with ids 0 .. 39, for evaluation. *)
Definition sample_photos : list Photo :=
  (λ n : nat, mkPhoto (Qc_of_Z (Z.of_nat n)) "" "" 0 0) <$> seq 0 40.

(** ** The responsive mosaic variant (src/unnamed/part_001) *)
Module Mosaic.

(** The values [setScreenSize] is ever called with. *)
Inductive ScreenSize := mobile | tablet | laptop | desktop.

Global Instance ScreenSize_eq_dec : EqDecision ScreenSize.
Proof. solve_decision. Defined.

(** [photoCount * 1.2] is [photoCount * 6 / 5] and [photoCount * 1.5] is
    [photoCount * 3 / 2]; [baseSizes[screenSize] || 4]. *)
Definition getResponsiveGridSize (photoCount : Z) (screenSize : ScreenSize) : Z :=
  let baseSize :=
    match screenSize with
    | mobile => Z.min 3 (Z.max 2 (ceil_sqrt photoCount))
    | tablet => Z.min 4 (Z.max 3 (ceil_sqrt photoCount))
    | laptop => Z.min 5 (Z.max 4 (ceil_sqrt_ratio (photoCount * 6) 5))
    | desktop => Z.min 6 (Z.max 4 (ceil_sqrt_ratio (photoCount * 3) 2))
    end in
  num_or baseSize 4.

Record Layout := mkLayout {
  size : string; row : Z; col : Z; rowSpan : Z; colSpan : Z
}.

Record Pattern := mkPattern { p_size : string; p_rowSpan : Z; p_colSpan : Z }.

Global Instance Layout_eq_dec : EqDecision Layout.
Proof. solve_decision. Defined.

(** The key [`${r}-${c}`] under which a cell is stored in [occupiedCells]. *)
Definition cellKey (r c : Z) : string := pretty r +:+ "-" +:+ pretty c.

(** The variables the body of [generateMosaicLayout] declares and mutates. *)
Record Locals := mkLocals {
  layouts : list Layout;
  currentRow : Z;
  currentCol : Z;
  occupiedCells : gset string
}.

Definition set_layouts (v : list Layout) (σ : Locals) : Locals :=
  mkLocals v (currentRow σ) (currentCol σ) (occupiedCells σ).
Definition set_currentRow (v : Z) (σ : Locals) : Locals :=
  mkLocals (layouts σ) v (currentCol σ) (occupiedCells σ).
Definition set_currentCol (v : Z) (σ : Locals) : Locals :=
  mkLocals (layouts σ) (currentRow σ) v (occupiedCells σ).
Definition set_occupiedCells (v : gset string) (σ : Locals) : Locals :=
  mkLocals (layouts σ) (currentRow σ) (currentCol σ) v.

(** [layouts.push (l)] and [occupiedCells.add (k)]. *)
Definition push (l : Layout) (σ : Locals) : Locals :=
  set_layouts (layouts σ ++ [l]) σ.
Definition add (k : string) (σ : Locals) : Locals :=
  set_occupiedCells ({[ k ]} ∪ occupiedCells σ) σ.

(** [currentCol++; if (currentCol > gridSize) { currentCol = 1; currentRow++ }] *)
Definition advance (gridSize : Z) (σ : Locals) : Locals :=
  let σ := set_currentCol (currentCol σ + 1) σ in
  if gridSize <? currentCol σ
  then set_currentRow (currentRow σ + 1) (set_currentCol 1 σ)
  else σ.

(** [while (occupiedCells.has (`${currentRow}-${currentCol}`)) { advance }].
    The loop is run with a bound on its number of iterations; [None] means
    the bound was reached with the condition still true. *)
Fixpoint skip_occupied (fuel : nat) (gridSize : Z) (σ : Locals) : option Locals :=
  match fuel with
  | O => None
  | S fuel' =>
      if decide (cellKey (currentRow σ) (currentCol σ) ∈ occupiedCells σ)
      then skip_occupied fuel' gridSize (advance gridSize σ)
      else Some σ
  end.

(** The cells visited by [for (r = r0; r <= r1; r++) for (c = c0; c <= c1;
    c++)], in visiting order. *)
Definition cells (r0 r1 c0 c1 : Z) : list (Z * Z) :=
  r ← seqZ r0 (r1 - r0 + 1); c ← seqZ c0 (c1 - c0 + 1); [(r, c)].

(** The result [canFit] of the nested scan that breaks at the first occupied
    cell. *)
Definition canFit (occ : gset string) (r0 r1 c0 c1 : Z) : bool :=
  forallb (λ rc, bool_decide (cellKey rc.1 rc.2 ∉ occ)) (cells r0 r1 c0 c1).

(** The nested loop that marks the cells of a placed pattern. *)
Definition mark (r0 r1 c0 c1 : Z) (σ : Locals) : Locals :=
  foldl (λ σ rc, add (cellKey rc.1 rc.2) σ) σ (cells r0 r1 c0 c1).

Definition place_small (σ : Locals) : Locals :=
  add (cellKey (currentRow σ) (currentCol σ))
    (push (mkLayout "small" (currentRow σ) (currentCol σ) 1 1) σ).

(** One iteration of the [for] loop once the cursor stands on a free cell. *)
Definition place (gridSize : Z) (pattern : Pattern) (σ : Locals) : Locals :=
  let endRow := currentRow σ + p_rowSpan pattern - 1 in
  let endCol := currentCol σ + p_colSpan pattern - 1 in
  let σ :=
    if (gridSize <? endRow) || (gridSize <? endCol) then place_small σ
    else if canFit (occupiedCells σ) (currentRow σ) endRow (currentCol σ) endCol
    then
      mark (currentRow σ) endRow (currentCol σ) endCol
        (push (mkLayout (p_size pattern) (currentRow σ) (currentCol σ)
                 (p_rowSpan pattern) (p_colSpan pattern)) σ)
    else place_small σ in
  advance gridSize σ.

(** The [while] loop at the head of an iteration cannot go round more often
    than there are occupied cells, so it is run with that bound. *)
Definition iteration (gridSize : Z) (patterns : list Pattern) (i : Z)
    (σ : Locals) : option Locals :=
  pattern ← patterns !! Z.to_nat (Z.rem i (Z.of_nat (length patterns)));
  σ ← skip_occupied (S (base.size (occupiedCells σ))) gridSize σ;
  Some (place gridSize pattern σ).

(** [for (let i = 0; i < photoCount; i++)]: [n] iterations are left. *)
Fixpoint for_photos (n : nat) (i : Z) (gridSize : Z) (patterns : list Pattern)
    (σ : Locals) : option Locals :=
  match n with
  | O => Some σ
  | S n' =>
      σ ← iteration gridSize patterns i σ;
      for_photos n' (i + 1) gridSize patterns σ
  end.

Definition mobile_patterns : list Pattern :=
  [ mkPattern "medium" 1 2; mkPattern "small" 1 1; mkPattern "wide" 1 3 ].

Definition default_patterns : list Pattern :=
  [ mkPattern "large" 2 2; mkPattern "wide" 1 3; mkPattern "tall" 3 1;
    mkPattern "medium" 1 2; mkPattern "small" 1 1 ].

(** [generateMosaicLayout (photoCount)] with the [screenSize] of the
    component, run in a store [σ] that holds whatever an earlier invocation
    left behind; the declarations at the head of the body and before the
    loop overwrite it.  The result is the returned array together with the
    store at the [return]; [None] is an invocation that returns no plan.
    [gridSize * 0.6] is [gridSize * 3 / 5]. *)
Definition generateMosaicLayout (photoCount : Z) (screenSize : ScreenSize)
    (σ : Locals) : option (list Layout * Locals) :=
  let σ := set_layouts [] σ in
  let gridSize := getResponsiveGridSize photoCount screenSize in
  if bool_decide (screenSize = mobile) && (photoCount =? 1) then
    Some ([ mkLayout "large" 1 1 2 2 ], σ)
  else if bool_decide (screenSize = mobile) && (photoCount =? 2) then
    Some ([ mkLayout "medium" 1 1 1 2; mkLayout "medium" 2 1 1 2 ], σ)
  else if bool_decide (screenSize = mobile) && (photoCount =? 3) then
    Some ([ mkLayout "medium" 1 1 1 2; mkLayout "small" 2 1 1 1;
            mkLayout "small" 2 2 1 1 ], σ)
  else if photoCount =? 1 then
    let span := if bool_decide (screenSize = mobile) then 2 else 4 in
    Some ([ mkLayout "large" 1 1 span span ], σ)
  else if photoCount =? 2 then
    let span := gridSize / 2 in
    Some ([ mkLayout "large" 1 1 gridSize span;
            mkLayout "large" 1 (span + 1) gridSize span ], σ)
  else if photoCount =? 3 then
    let largePan := gridSize * 3 / 5 in
    let mediumSpan := gridSize - largePan in
    Some ([ mkLayout "large" 1 1 largePan largePan;
            mkLayout "medium" 1 (largePan + 1)
              (num_or (mediumSpan / 2) 1) mediumSpan;
            mkLayout "medium" (mediumSpan / 2 + 2) (largePan + 1)
              (ceil_div mediumSpan 2) mediumSpan ], σ)
  else
    let patterns :=
      if bool_decide (screenSize = mobile) then mobile_patterns
      else default_patterns in
    let σ := set_occupiedCells ∅ (set_currentCol 1 (set_currentRow 1 σ)) in
    σ ← for_photos (Z.to_nat photoCount) 0 gridSize patterns σ;
    Some (layouts σ, σ).

(** [updateScreenSize], applied to [window.innerWidth]: the value it hands
    to [setScreenSize]. *)
Definition updateScreenSize (width : Z) : ScreenSize :=
  if width <? 480 then mobile
  else if width <? 768 then tablet
  else if width <? 1024 then laptop
  else desktop.

(** [getGridPosition (index, layout)] of this variant: the grid lines of a
    placement, as the strings given to [gridRow] and [gridColumn]. *)
Record GridArea := mkArea { gridRow : string; gridColumn : string }.

Definition getGridPosition (index : Z) (layout : Layout) : GridArea :=
  mkArea (pretty (row layout) +:+ " / " +:+ pretty (row layout + rowSpan layout))
    (pretty (col layout) +:+ " / " +:+ pretty (col layout + colSpan layout)).

(** The element rendered for a photo by [photos.map ((photo, index) => ...)]:
    its React key, its class name, its grid area and the image source;
    [None] is the [null] returned when [mosaicLayout[index]] is missing. *)
Record Item := mkItem {
  key : Qc; className : string; area : GridArea; img_src : string
}.

Definition render_photo (mosaicLayout : list Layout) (index : nat)
    (photo : Photo) : option Item :=
  match mosaicLayout !! index with
  | None => None
  | Some layout =>
      let gridPosition := getGridPosition (Z.of_nat index) layout in
      Some (mkItem (id photo)
              ("photo-item " +:+ orientation photo +:+ " size-" +:+ size layout)
              gridPosition (src photo))
  end.

(** The children of the mosaic container for the current collection: the
    plan is computed for [photos.length] and the photos are mapped over. *)
Definition render_photos (photos : list Photo) (screenSize : ScreenSize)
    (σ : Locals) : option (list (option Item)) :=
  mosaicLayout ← fst <$> generateMosaicLayout (Z.of_nat (length photos)) screenSize σ;
  Some (imap (render_photo mosaicLayout) photos).

(** The store of a first invocation: nothing has been left behind. *)
Definition no_locals : Locals := mkLocals [] 0 0 ∅.

(** The plan of an invocation. *)
Definition plan (photoCount : Z) (screenSize : ScreenSize) (σ : Locals)
    : option (list Layout) :=
  fst <$> generateMosaicLayout photoCount screenSize σ.

(** The grid cells a placement occupies: grid lines [row] to
    [row + rowSpan] and [col] to [col + colSpan]. *)
Definition covers (l : Layout) (r c : Z) : Prop :=
  row l ≤ r < row l + rowSpan l ∧ col l ≤ c < col l + colSpan l.

Definition disjoint (l1 l2 : Layout) : Prop :=
  ∀ r c, ¬ (covers l1 r c ∧ covers l2 r c).

Definition within (gridSize : Z) (l : Layout) : Prop :=
  ∀ r c, covers l r c → 1 ≤ r ≤ gridSize ∧ 1 ≤ c ≤ gridSize.

(** A sufficient test for disjointness, for evaluation on concrete plans. *)
Definition disjointb (l1 l2 : Layout) : bool :=
  bool_decide (rowSpan l1 ≤ 0 ∨ colSpan l1 ≤ 0 ∨ rowSpan l2 ≤ 0 ∨ colSpan l2 ≤ 0
    ∨ row l1 + rowSpan l1 ≤ row l2 ∨ row l2 + rowSpan l2 ≤ row l1
    ∨ col l1 + colSpan l1 ≤ col l2 ∨ col l2 + colSpan l2 ≤ col l1).

End Mosaic.

(** ** Vocabulary of the statements about the mosaic placer *)

(** A string without the separator of [cellKey]. *)
Fixpoint dashless (s : string) : Prop :=
  match s with
  | EmptyString => True
  | String a s' => a ≠ "-"%char ∧ dashless s'
  end.

(** The cursor stands on a column of a grid of [g] columns, in some row. *)
Definition cursor_ok (g : Z) (σ : Mosaic.Locals) : Prop :=
  1 ≤ Mosaic.currentRow σ ∧ 1 ≤ Mosaic.currentCol σ ≤ g.

(** The position of the cursor in row-major order. *)
Definition lin (g : Z) (σ : Mosaic.Locals) : Z :=
  Mosaic.currentRow σ * g + Mosaic.currentCol σ.

(** A placement as the placer makes them on a grid of size [g]: anchored at
    a positive row and column, with positive spans, inside the columns of
    the grid, and inside its rows when anchored in one of them. *)
Definition placed (g : Z) (l : Mosaic.Layout) : Prop :=
  1 ≤ Mosaic.row l ∧ 1 ≤ Mosaic.col l
  ∧ 1 ≤ Mosaic.rowSpan l ∧ 1 ≤ Mosaic.colSpan l
  ∧ Mosaic.col l + Mosaic.colSpan l - 1 ≤ g
  ∧ (Mosaic.row l ≤ g → Mosaic.row l + Mosaic.rowSpan l - 1 ≤ g).

Definition pairwise_disjoint (plan : list Mosaic.Layout) : Prop :=
  ∀ (i j : nat) li lj,
    plan !! i = Some li → plan !! j = Some lj → i ≠ j → Mosaic.disjoint li lj.

(** The invariant of the [for] loop of [generateMosaicLayout]. *)
Record Inv (g : Z) (σ : Mosaic.Locals) : Prop := mkInv {
  inv_cursor : cursor_ok g σ;
  inv_marked : ∀ l r c, l ∈ Mosaic.layouts σ → Mosaic.covers l r c →
                 Mosaic.cellKey r c ∈ Mosaic.occupiedCells σ;
  inv_placed : Forall (placed g) (Mosaic.layouts σ);
  inv_disjoint : pairwise_disjoint (Mosaic.layouts σ)
}.

Definition spans_positive (p : Mosaic.Pattern) : Prop :=
  1 ≤ Mosaic.p_rowSpan p ∧ 1 ≤ Mosaic.p_colSpan p.

Global Instance placed_dec (g : Z) (l : Mosaic.Layout) : Decision (placed g l).
Proof. unfold placed. apply _. Defined.

(** Pairwise disjointness of a concrete plan, by comparing every placement
    with the later ones. *)
Fixpoint pairwise_disjointb (plan : list Mosaic.Layout) : bool :=
  match plan with
  | [] => true
  | l :: rest => forallb (Mosaic.disjointb l) rest && pairwise_disjointb rest
  end.

(** The position of the anchor of a placement in row-major order. *)
Definition anchor_lin (g : Z) (l : Mosaic.Layout) : Z :=
  Mosaic.row l * g + Mosaic.col l.

(** Anchor [l1] comes before anchor [l2] in reading order. *)
Definition anchor_before (l1 l2 : Mosaic.Layout) : Prop :=
  Mosaic.row l1 < Mosaic.row l2
  ∨ (Mosaic.row l1 = Mosaic.row l2 ∧ Mosaic.col l1 < Mosaic.col l2).

(** Placement [l] is what iteration [i] of the general algorithm may push:
    the pattern of its turn, or the single-cell fallback. *)
Definition shape_ok (patterns : list Mosaic.Pattern) (i : nat) (l : Mosaic.Layout)
    : Prop :=
  (Mosaic.size l = "small" ∧ Mosaic.rowSpan l = 1 ∧ Mosaic.colSpan l = 1)
  ∨ (∃ p, patterns !! (i `mod` length patterns)%nat = Some p
          ∧ Mosaic.size l = Mosaic.p_size p
          ∧ Mosaic.rowSpan l = Mosaic.p_rowSpan p
          ∧ Mosaic.colSpan l = Mosaic.p_colSpan p).

(** What the loop keeps besides [Inv]: anchors in reading order and behind
    the cursor, every grid cell behind the cursor occupied, every occupied
    key that of a covered cell, and every placement of an allowed shape. *)
Record Inv2 (g : Z) (patterns : list Mosaic.Pattern) (σ : Mosaic.Locals) : Prop :=
  mkInv2 {
  inv2_sorted : ∀ (i j : nat) li lj,
      Mosaic.layouts σ !! i = Some li → Mosaic.layouts σ !! j = Some lj →
      (i < j)%nat → anchor_lin g li < anchor_lin g lj;
  inv2_behind : ∀ l, l ∈ Mosaic.layouts σ → anchor_lin g l < lin g σ;
  inv2_filled : ∀ r c, 1 ≤ r → 1 ≤ c ≤ g → r * g + c < lin g σ →
      Mosaic.cellKey r c ∈ Mosaic.occupiedCells σ;
  inv2_covered : ∀ k, k ∈ Mosaic.occupiedCells σ →
      ∃ l r c, l ∈ Mosaic.layouts σ ∧ Mosaic.covers l r c ∧ 1 ≤ r
               ∧ k = Mosaic.cellKey r c;
  inv2_shapes : ∀ (i : nat) l, Mosaic.layouts σ !! i = Some l → shape_ok patterns i l
}.

(** At the head of the loop the cursor stands one step after the anchor of
    the last placement. *)
Definition cursor_after_last (g : Z) (σ : Mosaic.Locals) : Prop :=
  ∀ l, last (Mosaic.layouts σ) = Some l → lin g σ = anchor_lin g l + 1.

(** A string without the blank that starts the separator of the grid lines
    in [Mosaic.getGridPosition]. *)
Fixpoint spaceless (s : string) : Prop :=
  match s with
  | EmptyString => True
  | String a s' => a ≠ " "%char ∧ spaceless s'
  end.

(** The patterns the general algorithm cycles through on a viewport class. *)
Definition patterns_of (s : Mosaic.ScreenSize) : list Mosaic.Pattern :=
  if bool_decide (s = Mosaic.mobile) then Mosaic.mobile_patterns
  else Mosaic.default_patterns.




(** * Properties *)

(** ** The size-class selectors *)

Lemma ceil_div_le (p q m : Z) : 0 < q → ceil_div p q ≤ m ↔ p ≤ q * m.
Proof.
  intros Hq. unfold ceil_div.
  pose proof (Z.div_mod (- p) q ltac:(lia)) as Hdm.
  pose proof (Z.mod_pos_bound (- p) q Hq) as Hb.
  split; intros H; nia.
Qed.

Lemma ceil_div_nonneg (p q : Z) : 0 < q → 0 ≤ p → 0 ≤ ceil_div p q.
Proof.
  intros Hq Hp. destruct (Z.le_gt_cases 0 (ceil_div p q)) as [|Hlt]; [done|].
  assert (ceil_div p q ≤ -1) as Hle by lia.
  apply ceil_div_le in Hle; lia.
Qed.

(** [ceil_sqrt_ratio p q] is the least natural number whose square reaches
    [p / q], which is what [Math.ceil (Math.sqrt (p / q))] denotes. *)
Lemma ceil_sqrt_ratio_le (p q n : Z) :
  0 < q → 0 ≤ p → 0 ≤ n → ceil_sqrt_ratio p q ≤ n ↔ p ≤ q * (n * n).
Proof.
  intros Hq Hp Hn. unfold ceil_sqrt_ratio.
  rewrite <- Z.sqrt_up_le_square by (auto using ceil_div_nonneg).
  by apply ceil_div_le.
Qed.

Lemma ceil_sqrt_le (c n : Z) : 0 ≤ c → 0 ≤ n → ceil_sqrt c ≤ n ↔ c ≤ n * n.
Proof. intros. unfold ceil_sqrt. by rewrite <- Z.sqrt_up_le_square. Qed.

(** The responsive selector as a step function of the count. *)
Lemma getResponsiveGridSize_steps (count : Z) (s : Mosaic.ScreenSize) :
  0 ≤ count →
  Mosaic.getResponsiveGridSize count s =
    match s with
    | Mosaic.mobile => if count <=? 4 then 2 else 3
    | Mosaic.tablet => if count <=? 9 then 3 else 4
    | Mosaic.laptop => if count <=? 13 then 4 else 5
    | Mosaic.desktop => if count <=? 10 then 4 else if count <=? 16 then 5 else 6
    end.
Proof.
  intros Hc. unfold Mosaic.getResponsiveGridSize, num_or.
  pose proof (ceil_sqrt_le count 2 Hc ltac:(lia)).
  pose proof (ceil_sqrt_le count 3 Hc ltac:(lia)).
  pose proof (ceil_sqrt_ratio_le (count * 6) 5 4 ltac:(lia) ltac:(lia) ltac:(lia)).
  pose proof (ceil_sqrt_ratio_le (count * 3) 2 4 ltac:(lia) ltac:(lia) ltac:(lia)).
  pose proof (ceil_sqrt_ratio_le (count * 3) 2 5 ltac:(lia) ltac:(lia) ltac:(lia)).
  destruct s; repeat case_match; lia.
Qed.

Lemma getLayoutConfig_capacity (count : Z) :
  let cfg := FixedGrid.getLayoutConfig count in
  1 ≤ FixedGrid.rows cfg ∧ 1 ≤ FixedGrid.cols cfg
  ∧ FixedGrid.cols cfg ≤ FixedGrid.rows cfg * FixedGrid.cols cfg
  ∧ count ≤ FixedGrid.rows cfg * FixedGrid.cols cfg.
Proof.
  unfold FixedGrid.getLayoutConfig.
  repeat (case_match; [simpl; lia|]). simpl.
  assert (100 < count) as Hc by lia.
  pose proof (Z.sqrt_up_spec count ltac:(lia)) as Hs. unfold ceil_sqrt.
  assert (1 ≤ Z.sqrt_up count) by (pose proof (Z.sqrt_up_nonneg count); nia).
  nia.
Qed.

(** C10: the responsive selector stays within fixed bounds per viewport
    class, whatever the photo count: 2..3 on mobile, 3..4 on tablet, 4..5 on
    laptop and 4..6 on desktop, so that the grid never has more than 36
    cells, and never more than 9 on mobile. *)
Theorem getResponsiveGridSize_bounds (photoCount : Z) (s : Mosaic.ScreenSize) :
  0 ≤ photoCount →
  let g := Mosaic.getResponsiveGridSize photoCount s in
  match s with
  | Mosaic.mobile => 2 ≤ g ≤ 3
  | Mosaic.tablet => 3 ≤ g ≤ 4
  | Mosaic.laptop => 4 ≤ g ≤ 5
  | Mosaic.desktop => 4 ≤ g ≤ 6
  end
  ∧ g * g ≤ 36 ∧ (s = Mosaic.mobile → g * g ≤ 9).
Proof.
  intros Hc g. subst g. rewrite getResponsiveGridSize_steps by done.
  destruct s; repeat case_match; (split; [lia|split; [lia|]]); intros; try lia; done.
Qed.

Lemma getResponsiveGridSize_bounds_witness :
  let g := Mosaic.getResponsiveGridSize 50 Mosaic.desktop in
  4 ≤ g ≤ 6 ∧ g * g ≤ 36 ∧ (Mosaic.desktop = Mosaic.mobile → g * g ≤ 9).
Proof. apply (getResponsiveGridSize_bounds 50 Mosaic.desktop). lia. Defined.

Lemma getGridSize_steps (photos : list Photo) :
  let count := Z.of_nat (length photos) in
  SquareGrid.getGridSize photos =
    if count =? 1 then 1 else if count <=? 4 then 2 else if count <=? 9 then 3
    else if count <=? 16 then 4 else if count <=? 25 then 5 else 6.
Proof. done. Qed.

(** C1, as stated, fails: the square grid chosen by [getGridSize] for 37
    photos has size 6, hence 36 cells. *)
Lemma capacity_not_for_every_count :
  ¬ (∀ count : Z, 0 ≤ count →
      (let cfg := FixedGrid.getLayoutConfig count in
       count ≤ FixedGrid.rows cfg * FixedGrid.cols cfg)
      ∧ (∀ s, let g := Mosaic.getResponsiveGridSize count s in count ≤ g * g)
      ∧ (∀ photos : list Photo, Z.of_nat (length photos) = count →
           let g := SquareGrid.getGridSize photos in count ≤ g * g)).
Proof.
  intros H. destruct (H 37 ltac:(lia)) as (_ & _ & Hsq).
  specialize (Hsq (replicate 37 (mkPhoto 0%Qc "" "" 0 0)) eq_refl).
  vm_compute in Hsq. by apply Hsq.
Qed.

(** C1, amended: for every count the step table of [getLayoutConfig] has at
    least [count] cells; the responsive grid has at least [count] cells
    exactly when the count is at most 9 (mobile), 16 (tablet), 25 (laptop) or
    36 (desktop); the square grid of [getGridSize] has at least [count] cells
    exactly when the count is at most 36. *)
Theorem capacity_up_to_ceiling (count : Z) :
  0 ≤ count →
  (let cfg := FixedGrid.getLayoutConfig count in
   1 ≤ FixedGrid.rows cfg ∧ 1 ≤ FixedGrid.cols cfg
   ∧ count ≤ FixedGrid.rows cfg * FixedGrid.cols cfg)
  ∧ (∀ s, let g := Mosaic.getResponsiveGridSize count s in
       count ≤ g * g ↔
       count ≤ match s with
               | Mosaic.mobile => 9 | Mosaic.tablet => 16
               | Mosaic.laptop => 25 | Mosaic.desktop => 36
               end)
  ∧ (∀ photos : list Photo, Z.of_nat (length photos) = count →
       let g := SquareGrid.getGridSize photos in count ≤ g * g ↔ count ≤ 36).
Proof.
  intros Hc. split; [|split].
  - pose proof (getLayoutConfig_capacity count). simpl in *. lia.
  - intros s g. subst g. rewrite getResponsiveGridSize_steps by done.
    destruct s; repeat case_match; lia.
  - intros photos Hlen g. subst g. rewrite getGridSize_steps. simpl.
    rewrite Hlen. repeat case_match; lia.
Qed.

Lemma capacity_up_to_ceiling_witness :
  (let cfg := FixedGrid.getLayoutConfig 101 in
   1 ≤ FixedGrid.rows cfg ∧ 1 ≤ FixedGrid.cols cfg
   ∧ 101 ≤ FixedGrid.rows cfg * FixedGrid.cols cfg)
  ∧ (∀ s, let g := Mosaic.getResponsiveGridSize 101 s in
       101 ≤ g * g ↔
       101 ≤ match s with
             | Mosaic.mobile => 9 | Mosaic.tablet => 16
             | Mosaic.laptop => 25 | Mosaic.desktop => 36
             end)
  ∧ (∀ photos : list Photo, Z.of_nat (length photos) = 101 →
       let g := SquareGrid.getGridSize photos in 101 ≤ g * g ↔ 101 ≤ 36).
Proof. apply (capacity_up_to_ceiling 101). lia. Defined.

(** ** The truncating export of the square-grid variant *)

Lemma forEach_append_take (g : Z) (photos container : list Photo) (index : Z) :
  0 ≤ index →
  SquareGrid.forEach_append g index photos container
  = container ++ take (Z.to_nat (g * g - index)) photos.
Proof.
  revert container index. induction photos as [|p rest IH]; intros container index Hi.
  - simpl. by rewrite take_nil, app_nil_r.
  - simpl. rewrite IH by lia. case_match.
    + replace (Z.to_nat (g * g - index)) with (S (Z.to_nat (g * g - (index + 1)))) by lia.
      simpl. by rewrite <- app_assoc.
    + replace (Z.to_nat (g * g - index)) with 0%nat by lia.
      replace (Z.to_nat (g * g - (index + 1))) with 0%nat by lia.
      done.
Qed.

(** C5: [getGridSize] maps one photo to 1, 2..4 photos to 2, 5..9 to 3,
    10..16 to 4, 17..25 to 5 and any larger count to 6; and with more than
    36 photos the exported composite holds exactly the first
    [gridSize * gridSize = 36] photos, in order, the later ones being left
    out. *)
Theorem getGridSize_table_and_truncation (photos : list Photo) :
  let count := Z.of_nat (length photos) in
  let g := SquareGrid.getGridSize photos in
  (count = 1 → g = 1) ∧ (2 ≤ count ≤ 4 → g = 2) ∧ (5 ≤ count ≤ 9 → g = 3)
  ∧ (10 ≤ count ≤ 16 → g = 4) ∧ (17 ≤ count ≤ 25 → g = 5) ∧ (26 ≤ count → g = 6)
  ∧ (1 ≤ count →
     SquareGrid.downloadCollage photos = Some (take (Z.to_nat (g * g)) photos))
  ∧ (36 < count →
     SquareGrid.downloadCollage photos = Some (take 36 photos)
     ∧ ∀ (index : nat) photo, photos !! index = Some photo →
         (36 ≤ index)%nat → take 36 photos !! index = None).
Proof.
  intros count g. subst g. rewrite getGridSize_steps. fold count.
  repeat split; try (intros; repeat case_match; lia).
  - intros Hc. unfold SquareGrid.downloadCollage. fold count.
    case_match; [lia|]. rewrite forEach_append_take by lia. simpl.
    rewrite getGridSize_steps. fold count. do 3 f_equal. lia.
  - unfold SquareGrid.downloadCollage. fold count.
    case_match; [lia|]. rewrite forEach_append_take by lia. simpl.
    rewrite getGridSize_steps. fold count. repeat case_match; try lia. done.
  - intros index photo _ Hi. apply lookup_take_ge. lia.
Qed.

Lemma getGridSize_table_and_truncation_witness :
  SquareGrid.downloadCollage sample_photos = Some (take 36 sample_photos).
Proof.
  apply (getGridSize_table_and_truncation sample_photos). vm_compute. done.
Defined.

(** ** The uniform grid placer *)

Lemma getGridPosition_formula (index : Z) (config : FixedGrid.LayoutConfig)
    (o : string) :
  FixedGrid.type config ≠ "single" →
  FixedGrid.getGridPosition index config o
  = FixedGrid.mkPos (pretty (index / FixedGrid.cols config + 1))
      (pretty (Z.rem index (FixedGrid.cols config) + 1)).
Proof. intros Ht. unfold FixedGrid.getGridPosition. by rewrite bool_decide_false. Qed.

Lemma row_major_inj (cols i j : Z) :
  1 ≤ cols → i / cols = j / cols → i `mod` cols = j `mod` cols → i = j.
Proof.
  intros Hc Hq Hr.
  rewrite (Z.div_mod i cols), (Z.div_mod j cols) by lia. congruence.
Qed.

(** On the shape chosen for [count] photos, the placer sends the indices
    below [count] to pairwise distinct cells of the grid. *)
Lemma getGridPosition_on_config (count index : Z) (o : string) :
  0 ≤ index < count →
  let cfg := FixedGrid.getLayoutConfig count in
  let r := index / FixedGrid.cols cfg + 1 in
  let c := index `mod` FixedGrid.cols cfg + 1 in
  FixedGrid.getGridPosition index cfg o = FixedGrid.mkPos (pretty r) (pretty c)
  ∧ 1 ≤ r ≤ FixedGrid.rows cfg ∧ 1 ≤ c ≤ FixedGrid.cols cfg.
Proof.
  intros Hi cfg r c.
  pose proof (getLayoutConfig_capacity count) as (Hr & Hc & _ & Hcap).
  fold cfg in Hr, Hc, Hcap.
  assert (r ≤ FixedGrid.rows cfg ∧ 1 ≤ r ∧ 1 ≤ c ≤ FixedGrid.cols cfg) as Hb.
  { subst r c. pose proof (Z.mod_pos_bound index (FixedGrid.cols cfg) ltac:(lia)).
    pose proof (Z.div_pos index (FixedGrid.cols cfg) ltac:(lia) ltac:(lia)).
    assert (index / FixedGrid.cols cfg < FixedGrid.rows cfg); [|lia].
    apply Z.div_lt_upper_bound; lia. }
  split; [|lia].
  destruct (decide (FixedGrid.type cfg = "single")) as [Hs|Hs].
  - unfold FixedGrid.getGridPosition. rewrite bool_decide_true by done.
    assert (count ≤ 1) as Hc1.
    { destruct (Z.leb_spec count 1) as [|Hgt]; [done|]. exfalso. revert Hs.
      subst cfg. unfold FixedGrid.getLayoutConfig.
      replace (count <=? 1) with false by lia. by repeat case_match. }
    assert (index = 0) as -> by lia.
    subst r c cfg. unfold FixedGrid.getLayoutConfig.
    replace (count <=? 1) with true by lia. done.
  - rewrite getGridPosition_formula by done. subst r c.
    by rewrite Z.rem_mod_nonneg by lia.
Qed.

(** On that shape, distinct indices below [count] get distinct cells. *)
Lemma getGridPosition_distinct (count index index' : Z) (o o' : string) :
  0 ≤ index < count → 0 ≤ index' < count → index' ≠ index →
  FixedGrid.getGridPosition index' (FixedGrid.getLayoutConfig count) o'
  ≠ FixedGrid.getGridPosition index (FixedGrid.getLayoutConfig count) o.
Proof.
  intros Hi Hi' Hne.
  destruct (getGridPosition_on_config count index o Hi) as (Hpos & _ & Hcol).
  destruct (getGridPosition_on_config count index' o' Hi') as (Hpos' & _ & Hcol').
  simpl in *. rewrite Hpos, Hpos'.
  generalize dependent (FixedGrid.getLayoutConfig count). intros cfg _ Hcol _ Hcol'.
  intros [= Hq Hm]. apply (inj pretty) in Hq, Hm. apply Hne.
  apply (row_major_inj (FixedGrid.cols cfg)); lia.
Qed.

(** The scenario of four photos: a 2 x 2 shape filled row by row. *)
Example fixed_grid_of_four :
  FixedGrid.getLayoutConfig 4 = FixedGrid.mkConfig 2 2 "grid"
  ∧ (λ index, FixedGrid.getGridPosition index (FixedGrid.getLayoutConfig 4) "")
      <$> [0; 1; 2; 3]
    = [ FixedGrid.mkPos "1" "1"; FixedGrid.mkPos "1" "2";
        FixedGrid.mkPos "2" "1"; FixedGrid.mkPos "2" "2" ].
Proof. split; reflexivity. Qed.

(** C4, as stated, fails on a config of type ['single'] with one column:
    index 1 is placed in cell (1, 1), not in row [floor (1 / 1) + 1 = 2], and
    it shares that cell with index 0. *)
Lemma getGridPosition_single_not_row_major :
  ¬ (∀ (index : Z) (config : FixedGrid.LayoutConfig) (o : string),
       0 ≤ index → 1 ≤ FixedGrid.cols config →
       FixedGrid.getGridPosition index config o
       = FixedGrid.mkPos (pretty (index / FixedGrid.cols config + 1))
           (pretty (index `mod` FixedGrid.cols config + 1))).
Proof.
  intros H.
  specialize (H 1 (FixedGrid.mkConfig 1 1 "single") "" ltac:(lia) ltac:(simpl; lia)).
  vm_compute in H. discriminate H.
Qed.

(** C4, amended: for every index [>= 0] and every config with [cols >= 1]
    whose type is not ['single'], the placer assigns row
    [floor (index / cols) + 1] and column [(index mod cols) + 1], distinct
    indices receive distinct cells, and the cell depends on nothing but the
    index and [cols]; a config of type ['single'] sends every index to cell
    (1, 1); on the config that [getLayoutConfig] chooses for [count] photos
    the formula holds for every index below [count], whatever the type. *)
Theorem getGridPosition_row_major (index : Z) (config : FixedGrid.LayoutConfig)
    (o : string) :
  0 ≤ index → 1 ≤ FixedGrid.cols config →
  (FixedGrid.type config ≠ "single" →
     FixedGrid.getGridPosition index config o
     = FixedGrid.mkPos (pretty (index / FixedGrid.cols config + 1))
         (pretty (index `mod` FixedGrid.cols config + 1))
     ∧ (∀ index' o', 0 ≤ index' → index' ≠ index →
          FixedGrid.getGridPosition index' config o'
          ≠ FixedGrid.getGridPosition index config o)
     ∧ (∀ config' o', FixedGrid.type config' ≠ "single" →
          FixedGrid.cols config' = FixedGrid.cols config →
          FixedGrid.getGridPosition index config' o'
          = FixedGrid.getGridPosition index config o))
  ∧ (FixedGrid.type config = "single" →
     FixedGrid.getGridPosition index config o = FixedGrid.mkPos "1" "1")
  ∧ (∀ count, index < count → config = FixedGrid.getLayoutConfig count →
     FixedGrid.getGridPosition index config o
     = FixedGrid.mkPos (pretty (index / FixedGrid.cols config + 1))
         (pretty (index `mod` FixedGrid.cols config + 1))).
Proof.
  intros Hi Hc. split; [|split].
  - intros Ht. rewrite getGridPosition_formula by done.
    rewrite Z.rem_mod_nonneg by lia. split; [done|split].
    + intros index' o' Hi' Hne. rewrite getGridPosition_formula by done.
      rewrite Z.rem_mod_nonneg by lia. intros [= Hr Hm].
      apply (inj pretty) in Hr, Hm. apply Hne.
      apply (row_major_inj (FixedGrid.cols config)); lia.
    + intros config' o' Ht' Hcols. rewrite getGridPosition_formula by done.
      rewrite Hcols. by rewrite Z.rem_mod_nonneg by lia.
  - intros Ht. unfold FixedGrid.getGridPosition. by rewrite bool_decide_true.
  - intros count Hlt ->.
    by destruct (getGridPosition_on_config count index o ltac:(lia)) as [-> _].
Qed.

Lemma getGridPosition_row_major_witness :
  FixedGrid.getGridPosition 7 (FixedGrid.mkConfig 3 3 "complex") ""
  = FixedGrid.mkPos "3" "2".
Proof.
  pose proof (getGridPosition_row_major 7 (FixedGrid.mkConfig 3 3 "complex") ""
                ltac:(lia) ltac:(simpl; lia)) as [H _].
  destruct (H ltac:(discriminate)) as [-> _]. reflexivity.
Defined.

(** ** The photo collection *)

Lemma removePhoto_cons (i : Qc) (p : Photo) (photos : list Photo) :
  removePhoto i (p :: photos)
  = if decide (id p = i) then removePhoto i photos else p :: removePhoto i photos.
Proof.
  unfold removePhoto. rewrite filter_cons.
  destruct (decide (id p = i)), (decide (id p ≠ i)); done.
Qed.

Lemma removePhoto_greatest (i : Qc) (l photos : list Photo) :
  sublist l photos → Forall (λ p, id p ≠ i) l → sublist l (removePhoto i photos).
Proof.
  induction 1 as [|p l1 l2 _ IH|p l1 l2 _ IH]; intros Hall.
  - constructor.
  - apply Forall_cons in Hall as [Hp Hall]. rewrite removePhoto_cons.
    rewrite decide_False by done. constructor. by apply IH.
  - rewrite removePhoto_cons. case_decide; [by apply IH|].
    apply sublist_cons. by apply IH.
Qed.

(** C8: [removePhoto (id)] keeps exactly the photos whose id differs from
    the given one, unchanged and in their original order: the result is a
    subsequence of the collection, holds a photo if and only if the
    collection holds it and its id differs, contains every subsequence of
    the collection that avoids the id, and is shorter by the number of
    photos with that id; when no photo has the id, the collection is
    returned as it is. *)
Theorem removePhoto_exact (i : Qc) (photos : list Photo) :
  sublist (removePhoto i photos) photos
  ∧ (∀ p, p ∈ removePhoto i photos ↔ p ∈ photos ∧ id p ≠ i)
  ∧ (∀ l, sublist l photos → Forall (λ p, id p ≠ i) l →
       sublist l (removePhoto i photos))
  ∧ (length (removePhoto i photos) + length (filter (λ p, id p = i) photos)
     = length photos)%nat
  ∧ ((∀ p, p ∈ photos → id p ≠ i) → removePhoto i photos = photos).
Proof.
  split; [|split; [|split; [|split]]].
  - apply sublist_filter.
  - intros p. unfold removePhoto. rewrite list_elem_of_filter. tauto.
  - intros l. apply removePhoto_greatest.
  - induction photos as [|p photos IH]; [done|].
    rewrite removePhoto_cons, filter_cons. case_decide; simpl; lia.
  - intros Hall. induction photos as [|p photos IH]; [done|].
    rewrite removePhoto_cons, decide_False by (apply Hall; left).
    f_equal. apply IH. intros q Hq. apply Hall. by right.
Qed.

Lemma removePhoto_exact_witness :
  removePhoto (Qc_of_Z 99) sample_photos = sample_photos.
Proof.
  apply (removePhoto_exact (Qc_of_Z 99) sample_photos).
  intros p Hp. apply list_elem_of_fmap in Hp as (n & -> & Hn).
  apply elem_of_seq in Hn. simpl. intros Heq.
  apply (f_equal (λ q : Qc, Qnum (this q))) in Heq. simpl in Heq. lia.
Defined.




(** *** Ids under binary64 addition *)

(** Known values: the double nearest to one tenth; [0.1 + 0.2]; the tie at
    2^53 + 1, which goes to the even significand. *)
Example round64_known_values :
  round64 (Q2Qc (1 # 10)) = Q2Qc (3602879701896397 # 2 ^ 55)
  ∧ fadd (round64 (Q2Qc (1 # 10))) (round64 (Q2Qc (2 # 10)))
    = Q2Qc (1351079888211149 # 2 ^ 52)
  ∧ round64 (Qc_of_Z (2 ^ 53 + 1)) = Qc_of_Z (2 ^ 53)
  ∧ round64 (Qc_of_Z (2 ^ 53 + 3)) = Qc_of_Z (2 ^ 53 + 4).
Proof. repeat split; apply Qc_is_canon; vm_compute; reflexivity. Qed.











(** At a clock reading of today two draws that differ only beyond the
    twelfth binary place give the same id, and a draw just below 1 gives the
    id of the next millisecond: readings one millisecond apart are not
    enough for distinct ids. *)
Lemma close_inputs_collide :
  fadd (Qc_of_Z 1800000000000) (Q2Qc (1 # 4))
  = fadd (Qc_of_Z 1800000000000) (Q2Qc (1 # 4) + Q2Qc (1 # 2 ^ 20))%Qc
  ∧ Q2Qc (1 # 4) ≠ (Q2Qc (1 # 4) + Q2Qc (1 # 2 ^ 20))%Qc
  ∧ fadd (Qc_of_Z 1800000000000) (Q2Qc ((2 ^ 53 - 1) # 2 ^ 53))
    = Qc_of_Z 1800000000001.
Proof.
  split; [|split].
  - apply Qc_is_canon. vm_compute. reflexivity.
  - intros H. apply (f_equal this) in H. vm_compute in H. discriminate H.
  - apply Qc_is_canon. vm_compute. reflexivity.
Qed.




(** ** The keys of the occupancy set *)

Lemma pretty_N_go_dashless (x : N) (s : string) :
  dashless s → dashless (pretty_N_go x s).
Proof.
  revert s. induction (N.lt_wf_0 x) as [x _ IH]; intros s Hs.
  destruct (decide (x = 0)%N) as [->|Hx]; [by rewrite pretty_N_go_0|].
  rewrite pretty_N_go_step by lia. apply IH; [apply N.div_lt; lia|].
  split; [|done]. unfold pretty_N_char. by repeat case_match.
Qed.

Lemma pretty_Z_dashless (z : Z) : 0 ≤ z → dashless (pretty z).
Proof.
  destruct z as [|p|p]; [done| |lia]. intros _.
  unfold pretty, pretty_Z, pretty, pretty_positive, pretty, pretty_N.
  case_decide; [done|]. by apply pretty_N_go_dashless.
Qed.

Lemma dashless_split (d1 d2 e1 e2 : string) :
  dashless d1 → dashless d2 →
  d1 +:+ "-" +:+ e1 = d2 +:+ "-" +:+ e2 → d1 = d2 ∧ e1 = e2.
Proof.
  change ("-" +:+ e1) with (String "-" e1). change ("-" +:+ e2) with (String "-" e2).
  revert d2. induction d1 as [|a d1 IH]; intros [|b d2]; cbn.
  - intros _ _ [= ->]. done.
  - intros _ [Hb _] [= <- _]. done.
  - intros [Ha _] _ [= -> _]. done.
  - intros [_ H1] [_ H2] [= -> Heq]. destruct (IH d2 H1 H2 Heq) as [-> ->]. done.
Qed.

(** Distinct cells with non-negative rows have distinct keys. *)
Lemma cellKey_inj (r c r' c' : Z) :
  0 ≤ r → 0 ≤ r' → Mosaic.cellKey r c = Mosaic.cellKey r' c' → r = r' ∧ c = c'.
Proof.
  intros Hr Hr' Heq. unfold Mosaic.cellKey in Heq.
  apply dashless_split in Heq as [H1 H2]; auto using pretty_Z_dashless.
  split; by apply (inj pretty).
Qed.

(** ** The cursor and the scan for a free cell *)

Section cursor.
Variable g : Z.
Hypothesis g_pos : 1 ≤ g.

Lemma advance_layouts σ : Mosaic.layouts (Mosaic.advance g σ) = Mosaic.layouts σ.
Proof. unfold Mosaic.advance. by case_match. Qed.

Lemma advance_occupiedCells σ :
  Mosaic.occupiedCells (Mosaic.advance g σ) = Mosaic.occupiedCells σ.
Proof. unfold Mosaic.advance. by case_match. Qed.

Lemma advance_cursor σ :
  cursor_ok g σ →
  cursor_ok g (Mosaic.advance g σ) ∧ lin g (Mosaic.advance g σ) = lin g σ + 1.
Proof.
  unfold cursor_ok, lin, Mosaic.advance. intros [Hr Hc]. simpl.
  case_match; simpl; split; lia.
Qed.

(** The scan passes only occupied cells, later and later in row-major
    order, so it stops before it has made more steps than there are occupied
    cells. *)
Lemma skip_occupied_bounded (fuel : nat) (σ : Mosaic.Locals) (passed : gset string) :
  cursor_ok g σ →
  passed ⊆ Mosaic.occupiedCells σ →
  (∀ r c, 0 ≤ r → 1 ≤ c ≤ g → Mosaic.cellKey r c ∈ passed → r * g + c < lin g σ) →
  (size (Mosaic.occupiedCells σ) < size passed + fuel)%nat →
  ∃ σ', Mosaic.skip_occupied fuel g σ = Some σ'
        ∧ Mosaic.layouts σ' = Mosaic.layouts σ
        ∧ Mosaic.occupiedCells σ' = Mosaic.occupiedCells σ
        ∧ cursor_ok g σ'
        ∧ Mosaic.cellKey (Mosaic.currentRow σ') (Mosaic.currentCol σ')
            ∉ Mosaic.occupiedCells σ'.
Proof.
  revert σ passed. induction fuel as [|fuel IH]; intros σ passed Hok Hsub Hlin Hsize.
  { apply subseteq_size in Hsub. lia. }
  simpl. case_decide as Hocc; [|by exists σ].
  destruct (advance_cursor σ Hok) as [Hok' Hlin'].
  assert (Mosaic.cellKey (Mosaic.currentRow σ) (Mosaic.currentCol σ) ∉ passed) as Hnew.
  { intros Hin. destruct Hok as [? ?]. apply Hlin in Hin; [|lia..]. unfold lin in Hin. lia. }
  set (k := Mosaic.cellKey (Mosaic.currentRow σ) (Mosaic.currentCol σ)) in *.
  assert ({[ k ]} ∪ passed ⊆ Mosaic.occupiedCells (Mosaic.advance g σ)) as Hsub'.
  { rewrite advance_occupiedCells. apply union_subseteq.
    split; [by apply singleton_subseteq_l|done]. }
  assert (∀ r c, 0 ≤ r → 1 ≤ c ≤ g → Mosaic.cellKey r c ∈ {[ k ]} ∪ passed →
            r * g + c < lin g (Mosaic.advance g σ)) as Hlin''.
  { intros r c Hr Hc [Hin|Hin]%elem_of_union.
    - apply elem_of_singleton in Hin. destruct Hok as [? ?].
      apply cellKey_inj in Hin as [-> ->]; [|lia..]. unfold lin in *. lia.
    - apply Hlin in Hin; [|done..]. lia. }
  assert (size (Mosaic.occupiedCells (Mosaic.advance g σ))
          < size ({[ k ]} ∪ passed) + fuel)%nat as Hsize'.
  { rewrite advance_occupiedCells. rewrite size_union by (by apply disjoint_singleton_l).
    rewrite size_singleton. lia. }
  destruct (IH _ _ Hok' Hsub' Hlin'' Hsize') as (σ' & Hrun & Hl & Ho & Hok'' & Hfree).
  exists σ'. split; [done|]. split; [by rewrite Hl, advance_layouts|].
  split; [by rewrite Ho, advance_occupiedCells|]. done.
Qed.

Lemma skip_occupied_total (σ : Mosaic.Locals) :
  cursor_ok g σ →
  ∃ σ', Mosaic.skip_occupied (S (size (Mosaic.occupiedCells σ))) g σ = Some σ'
        ∧ Mosaic.layouts σ' = Mosaic.layouts σ
        ∧ Mosaic.occupiedCells σ' = Mosaic.occupiedCells σ
        ∧ cursor_ok g σ'
        ∧ Mosaic.cellKey (Mosaic.currentRow σ') (Mosaic.currentCol σ')
            ∉ Mosaic.occupiedCells σ'.
Proof.
  intros Hok. apply (skip_occupied_bounded _ σ ∅); [done|apply empty_subseteq| |].
  { intros r c _ _ Hin. by apply not_elem_of_empty in Hin. }
  rewrite size_empty. lia.
Qed.

End cursor.

(** ** One iteration of the placer *)

Lemma elem_of_cells (r0 r1 c0 c1 r c : Z) :
  (r, c) ∈ Mosaic.cells r0 r1 c0 c1 ↔ r0 ≤ r ≤ r1 ∧ c0 ≤ c ≤ c1.
Proof.
  unfold Mosaic.cells. rewrite list_elem_of_bind. split.
  - intros (r' & (c' & Hrc & Hc)%list_elem_of_bind & Hr).
    apply list_elem_of_singleton in Hrc as [= -> ->].
    apply elem_of_seqZ in Hc, Hr. lia.
  - intros [Hr Hc]. exists r. split; [|apply elem_of_seqZ; lia].
    apply list_elem_of_bind. exists c. split; [by left|apply elem_of_seqZ; lia].
Qed.

Lemma canFit_free (occ : gset string) (r0 r1 c0 c1 r c : Z) :
  Mosaic.canFit occ r0 r1 c0 c1 = true →
  r0 ≤ r ≤ r1 → c0 ≤ c ≤ c1 → Mosaic.cellKey r c ∉ occ.
Proof.
  unfold Mosaic.canFit. rewrite forallb_forall. intros Hall Hr Hc.
  specialize (Hall (r, c)). rewrite <- list_elem_of_In, elem_of_cells in Hall.
  specialize (Hall (conj Hr Hc)). by apply bool_decide_eq_true in Hall.
Qed.

Lemma mark_fold (cs : list (Z * Z)) (σ : Mosaic.Locals) :
  foldl (λ σ rc, Mosaic.add (Mosaic.cellKey rc.1 rc.2) σ) σ cs
  = Mosaic.set_occupiedCells
      (list_to_set ((λ rc, Mosaic.cellKey rc.1 rc.2) <$> cs) ∪ Mosaic.occupiedCells σ) σ.
Proof.
  revert σ. induction cs as [|rc cs IH]; intros σ; simpl.
  - destruct σ. unfold Mosaic.set_occupiedCells. simpl. f_equal.
    by rewrite (left_id_L ∅ (∪)).
  - rewrite IH. unfold Mosaic.add, Mosaic.set_occupiedCells. simpl. f_equal.
    rewrite !(assoc_L (∪)). f_equal. apply (comm_L (∪)).
Qed.

Lemma pairwise_disjoint_snoc (plan : list Mosaic.Layout) (l : Mosaic.Layout) :
  pairwise_disjoint plan →
  (∀ l', l' ∈ plan → Mosaic.disjoint l' l) →
  pairwise_disjoint (plan ++ [l]).
Proof.
  intros Hpd Hnew i j li lj Hi Hj Hne.
  apply lookup_snoc_Some in Hi as [[Hi1 Hi2]|[Hi1 <-]];
    apply lookup_snoc_Some in Hj as [[Hj1 Hj2]|[Hj1 <-]].
  - by eapply Hpd.
  - apply Hnew. by eapply list_elem_of_lookup_2.
  - intros r c [? ?]. eapply Hnew; [by eapply list_elem_of_lookup_2|]. eauto.
  - lia.
Qed.

Local Arguments Mosaic.skip_occupied : simpl never.
Local Arguments Mosaic.place : simpl never.

Section iteration.
Variable g : Z.
Hypothesis g_pos : 1 ≤ g.

(** Pushing a placement anchored at the cursor whose cells are free, marking
    at least its cells, and moving the cursor on, re-establishes the
    invariant. *)
Lemma extend_inv (σ : Mosaic.Locals) (l : Mosaic.Layout) (occ' : gset string) :
  Inv g σ →
  placed g l →
  (∀ r c, Mosaic.covers l r c → Mosaic.cellKey r c ∉ Mosaic.occupiedCells σ) →
  Mosaic.occupiedCells σ ⊆ occ' →
  (∀ r c, Mosaic.covers l r c → Mosaic.cellKey r c ∈ occ') →
  Inv g (Mosaic.advance g
           (Mosaic.mkLocals (Mosaic.layouts σ ++ [l]) (Mosaic.currentRow σ)
              (Mosaic.currentCol σ) occ')).
Proof.
  intros [Hcur Hmarked Hplaced Hdisj] Hl Hfree Hsub Hcov.
  split.
  - by apply advance_cursor.
  - intros l' r c. rewrite advance_layouts, advance_occupiedCells. simpl.
    intros [Hin|Hin]%elem_of_app Hc.
    + apply Hsub. by eapply Hmarked.
    + apply list_elem_of_singleton in Hin as ->. by apply Hcov.
  - rewrite advance_layouts. simpl. apply Forall_app. split; [done|].
    by apply Forall_singleton.
  - rewrite advance_layouts. simpl. apply pairwise_disjoint_snoc; [done|].
    intros l' Hin r c [Hc' Hc]. apply (Hfree r c Hc). by eapply Hmarked.
Qed.

Lemma place_inv (pattern : Mosaic.Pattern) (σ : Mosaic.Locals) :
  Inv g σ →
  spans_positive pattern →
  Mosaic.cellKey (Mosaic.currentRow σ) (Mosaic.currentCol σ) ∉ Mosaic.occupiedCells σ →
  Inv g (Mosaic.place g pattern σ)
  ∧ ∃ l, Mosaic.layouts (Mosaic.place g pattern σ) = Mosaic.layouts σ ++ [l].
Proof.
  intros HI [Hrs Hcs] Hfree.
  pose proof (inv_cursor _ _ HI) as [Hrow Hcol].
  assert (Inv g (Mosaic.advance g (Mosaic.place_small σ))
          ∧ ∃ l, Mosaic.layouts (Mosaic.advance g (Mosaic.place_small σ))
                 = Mosaic.layouts σ ++ [l]) as Hsmall.
  { split; [|rewrite advance_layouts; by eexists].
    apply (extend_inv σ (Mosaic.mkLayout "small" _ _ 1 1)
             ({[ Mosaic.cellKey (Mosaic.currentRow σ) (Mosaic.currentCol σ) ]}
              ∪ Mosaic.occupiedCells σ)); [done| | |apply union_subseteq_r|].
    - unfold placed. simpl. lia.
    - intros r c [Hr Hc]. simpl in *.
      by replace r with (Mosaic.currentRow σ) by lia;
         replace c with (Mosaic.currentCol σ) by lia.
    - intros r c [Hr Hc]. simpl in *.
      replace r with (Mosaic.currentRow σ) by lia.
      replace c with (Mosaic.currentCol σ) by lia.
      by apply elem_of_union_l, elem_of_singleton. }
  unfold Mosaic.place. case_match; [done|]. case_match eqn:Hfit; [|done].
  split; [|rewrite advance_layouts; unfold Mosaic.mark; rewrite mark_fold; by eexists].
  unfold Mosaic.mark. rewrite mark_fold.
  apply (extend_inv σ
           (Mosaic.mkLayout (Mosaic.p_size pattern) (Mosaic.currentRow σ)
              (Mosaic.currentCol σ) (Mosaic.p_rowSpan pattern) (Mosaic.p_colSpan pattern)));
    [done| | |apply union_subseteq_r|].
  - unfold placed. simpl. lia.
  - intros r c [Hr Hc]. simpl in *. eapply canFit_free; [exact Hfit|lia..].
  - intros r c [Hr Hc]. simpl in *. apply elem_of_union_l, elem_of_list_to_set.
    apply (list_elem_of_fmap_2' _ _ (r, c)); [|done]. apply elem_of_cells. lia.
Qed.

Lemma iteration_inv (patterns : list Mosaic.Pattern) (i : Z) (σ : Mosaic.Locals) :
  Inv g σ → Forall spans_positive patterns → patterns ≠ [] → 0 ≤ i →
  ∃ σ' l, Mosaic.iteration g patterns i σ = Some σ'
          ∧ Inv g σ' ∧ Mosaic.layouts σ' = Mosaic.layouts σ ++ [l].
Proof.
  intros HI Hpats Hne Hi. unfold Mosaic.iteration.
  destruct (lookup_lt_is_Some_2 patterns
              (Z.to_nat (Z.rem i (Z.of_nat (length patterns))))) as [pattern Hp].
  { destruct patterns; [done|]. simpl length in *.
    pose proof (Z.rem_bound_pos i (Z.of_nat (S (length patterns))) Hi ltac:(lia)). lia. }
  rewrite Hp. simpl.
  destruct (skip_occupied_total g g_pos σ (inv_cursor _ _ HI))
    as (σ1 & -> & Hl & Ho & Hcur & Hfree). simpl.
  assert (Inv g σ1) as HI1.
  { destruct HI as [? Hm Hpl Hd]. split; [done| | |]; by rewrite ?Hl, ?Ho. }
  destruct (place_inv pattern σ1 HI1) as [HI' [l Hl']]; [|done|].
  { eapply Forall_forall in Hpats; [done|]. by eapply list_elem_of_lookup_2. }
  exists (Mosaic.place g pattern σ1), l. by rewrite Hl', Hl.
Qed.

Lemma for_photos_inv (patterns : list Mosaic.Pattern) (n : nat) (i : Z)
    (σ : Mosaic.Locals) :
  Inv g σ → Forall spans_positive patterns → patterns ≠ [] → 0 ≤ i →
  ∃ σ', Mosaic.for_photos n i g patterns σ = Some σ'
        ∧ Inv g σ' ∧ length (Mosaic.layouts σ') = (length (Mosaic.layouts σ) + n)%nat.
Proof.
  intros HI Hpats Hne. revert i σ HI.
  induction n as [|n IH]; intros i σ HI Hi; simpl.
  - exists σ. split; [done|]. split; [done|lia].
  - destruct (iteration_inv patterns i σ HI Hpats Hne Hi) as (σ1 & l & -> & HI1 & Hl).
    simpl. destruct (IH (i + 1) σ1 HI1 ltac:(lia)) as (σ' & -> & HI' & Hlen).
    exists σ'. split; [done|]. split; [done|].
    rewrite Hlen, Hl, length_app. simpl. lia.
Qed.

End iteration.

(** ** Checking concrete plans *)

Lemma disjointb_sound (l1 l2 : Mosaic.Layout) :
  Mosaic.disjointb l1 l2 = true → Mosaic.disjoint l1 l2.
Proof.
  unfold Mosaic.disjointb, Mosaic.disjoint, Mosaic.covers.
  intros H%bool_decide_eq_true r c. lia.
Qed.

Lemma pairwise_disjointb_sound (plan : list Mosaic.Layout) :
  pairwise_disjointb plan = true → pairwise_disjoint plan.
Proof.
  induction plan as [|l rest IH]; simpl.
  { intros _ i j li lj Hi. by rewrite lookup_nil in Hi. }
  intros [Hl Hrest]%andb_true_iff. rewrite forallb_forall in Hl.
  specialize (IH Hrest). intros i j li lj Hi Hj Hne.
  destruct i as [|i], j as [|j]; simpl in *; simplify_eq.
  - apply disjointb_sound, Hl, list_elem_of_In. by eapply list_elem_of_lookup_2.
  - intros r c [? ?]. eapply (disjointb_sound lj li); [|eauto].
    apply Hl, list_elem_of_In. by eapply list_elem_of_lookup_2.
  - eapply IH; eauto.
Qed.

Lemma placed_within (g : Z) (l : Mosaic.Layout) :
  placed g l →
  (∀ r c, Mosaic.covers l r c → 1 ≤ r ∧ 1 ≤ c ≤ g)
  ∧ (Mosaic.row l ≤ g → Mosaic.within g l).
Proof.
  unfold placed, Mosaic.within, Mosaic.covers. intros Hp. split.
  - intros r c Hc. lia.
  - intros Hr r c Hc. lia.
Qed.

(** ** The mosaic plan *)

Lemma Inv_initial (g : Z) : 1 ≤ g → Inv g (Mosaic.mkLocals [] 1 1 ∅).
Proof.
  intros Hg. split; simpl.
  - unfold cursor_ok. simpl. lia.
  - intros l r c Hin. by apply elem_of_nil in Hin.
  - constructor.
  - intros i j li lj Hi. by rewrite lookup_nil in Hi.
Qed.

Lemma patterns_positive (s : Mosaic.ScreenSize) :
  let patterns := if bool_decide (s = Mosaic.mobile) then Mosaic.mobile_patterns
                  else Mosaic.default_patterns in
  Forall spans_positive patterns ∧ patterns ≠ [].
Proof.
  simpl. case_bool_decide; (split; [|done]);
    repeat constructor; simpl; lia.
Qed.

(** Every invocation returns a plan with one placement per photo; the
    placements are pairwise disjoint and, unless the count is 1 on a tablet,
    each of them is [placed]; up to three photos they all start inside the
    grid. *)
Lemma generateMosaicLayout_spec (count : Z) (s : Mosaic.ScreenSize) (σ : Mosaic.Locals) :
  0 ≤ count →
  ∃ p σ', Mosaic.generateMosaicLayout count s σ = Some (p, σ')
          ∧ length p = Z.to_nat count
          ∧ pairwise_disjoint p
          ∧ ((count = 1 → s ≠ Mosaic.tablet) →
               Forall (placed (Mosaic.getResponsiveGridSize count s)) p)
          ∧ (count ≤ 3 →
               Forall (λ l, Mosaic.row l ≤ Mosaic.getResponsiveGridSize count s) p).
Proof.
  intros Hc.
  destruct (decide (count = 1 ∨ count = 2 ∨ count = 3)) as [Hsmall|Hbig].
  - destruct Hsmall as [-> | [-> | ->]]; destruct s;
      (eexists _, _; split; [reflexivity|]; split; [reflexivity|];
       split; [by apply pairwise_disjointb_sound|]; split;
       [intros Hx; try (by destruct Hx);
        apply Forall_forall; intros l Hl; apply list_elem_of_In in Hl; simpl in Hl;
        (repeat destruct Hl as [<- | Hl]); try done;
        by apply (bool_decide_unpack _)
       |intros _; by apply (bool_decide_unpack _)]).
  - unfold Mosaic.generateMosaicLayout.
    replace (count =? 1) with false by lia.
    replace (count =? 2) with false by lia.
    replace (count =? 3) with false by lia.
    rewrite !andb_false_r.
    pose proof (getResponsiveGridSize_bounds count s Hc) as [Hg _]. simpl in Hg.
    set (g := Mosaic.getResponsiveGridSize count s) in *.
    assert (1 ≤ g) as Hg1 by (destruct s; lia).
    destruct (patterns_positive s) as [Hpos Hne].
    destruct (for_photos_inv g Hg1 _ (Z.to_nat count) 0 _ (Inv_initial g Hg1) Hpos Hne
                ltac:(lia)) as (σ' & Hrun & HI & Hlen).
    cbv zeta. fold g.
    change (Mosaic.set_occupiedCells ∅ _) with (Mosaic.mkLocals [] 1 1 ∅).
    rewrite Hrun. simpl. eexists _, _. split; [done|].
    split; [by rewrite Hlen|]. split; [apply HI|]. split; [intros _; apply HI|].
    intros Hle. assert (count = 0) as Hz by lia.
    rewrite Hz in Hlen. simpl in Hlen. destruct (Mosaic.layouts σ'); [constructor|done].
Qed.

(** A scan that ends within some bound ends in the same store within any
    larger bound: the bound used by [iteration] cuts nothing off. *)
Lemma skip_occupied_more_fuel (fuel fuel' : nat) (g : Z) (σ σ' : Mosaic.Locals) :
  Mosaic.skip_occupied fuel g σ = Some σ' → (fuel ≤ fuel')%nat →
  Mosaic.skip_occupied fuel' g σ = Some σ'.
Proof.
  revert fuel' σ. induction fuel as [|fuel IH]; intros fuel' σ; [done|].
  intros Hrun Hle. destruct fuel' as [|fuel']; [lia|].
  revert Hrun. unfold Mosaic.skip_occupied; fold Mosaic.skip_occupied.
  case_decide; [|done]. intros Hrun. apply IH; [done|lia].
Qed.

(** C3: for every photo count [>= 0] and every viewport class,
    [generateMosaicLayout] returns, and returns a list with exactly one
    placement per photo; the scan that skips occupied cells ends: from any
    cursor on the grid it stops within [size occupiedCells + 1] rounds, on a
    free cell, and a larger bound changes nothing. *)
Theorem generateMosaicLayout_total (photoCount : Z) (s : Mosaic.ScreenSize)
    (σ : Mosaic.Locals) :
  0 ≤ photoCount →
  (∃ p σ', Mosaic.generateMosaicLayout photoCount s σ = Some (p, σ')
           ∧ Z.of_nat (length p) = photoCount)
  ∧ (∀ g σ0, 1 ≤ g → cursor_ok g σ0 →
       ∃ σ1, (∀ fuel, (size (Mosaic.occupiedCells σ0) < fuel)%nat →
                Mosaic.skip_occupied fuel g σ0 = Some σ1)
             ∧ Mosaic.cellKey (Mosaic.currentRow σ1) (Mosaic.currentCol σ1)
                 ∉ Mosaic.occupiedCells σ0).
Proof.
  intros Hc. split.
  - destruct (generateMosaicLayout_spec photoCount s σ Hc) as (p & σ' & Hrun & Hlen & _).
    exists p, σ'. split; [done|lia].
  - intros g σ0 Hg Hok.
    destruct (skip_occupied_total g Hg σ0 Hok) as (σ1 & Hrun & _ & Ho & _ & Hfree).
    exists σ1. split; [|by rewrite <- Ho].
    intros fuel Hfuel. eapply skip_occupied_more_fuel; [exact Hrun|lia].
Qed.

Lemma generateMosaicLayout_total_witness :
  ∃ p σ', Mosaic.generateMosaicLayout 7 Mosaic.laptop Mosaic.no_locals = Some (p, σ')
          ∧ Z.of_nat (length p) = 7.
Proof.
  apply (generateMosaicLayout_total 7 Mosaic.laptop Mosaic.no_locals). lia.
Defined.

(** C2, as stated, fails: the plan for 10 photos on a mobile viewport, whose
    grid has size 3, places its sixth photo in row 4. *)
Lemma mosaic_plan_leaves_grid :
  ¬ (∀ (count : Z) (s : Mosaic.ScreenSize) (σ σ' : Mosaic.Locals)
       (p : list Mosaic.Layout),
       0 ≤ count →
       Mosaic.generateMosaicLayout count s σ = Some (p, σ') →
       pairwise_disjoint p
       ∧ Forall (Mosaic.within (Mosaic.getResponsiveGridSize count s)) p).
Proof.
  intros H.
  destruct (Mosaic.generateMosaicLayout 10 Mosaic.mobile Mosaic.no_locals)
    as [[p σ']|] eqn:Hrun; [|by vm_compute in Hrun].
  destruct (H 10 Mosaic.mobile Mosaic.no_locals σ' p ltac:(lia) Hrun) as [_ Hin].
  vm_compute in Hrun. injection Hrun as <- _.
  rewrite Forall_lookup in Hin.
  specialize (Hin 5%nat (Mosaic.mkLayout "small" 4 1 1 1) eq_refl 4 1).
  change (Mosaic.getResponsiveGridSize 10 Mosaic.mobile) with 3 in Hin.
  unfold Mosaic.covers in Hin. simpl in Hin. lia.
Qed.

(** C2, amended: for every photo count and viewport class the placements of
    the mosaic plan are pairwise disjoint; unless the count is 1 on a tablet
    viewport, every placement starts at a row and a column [>= 1], spans at
    least one row and one column, lies
    within the columns [1 .. gridSize], and lies entirely within the grid
    when it is anchored in one of the rows [1 .. gridSize], which all
    placements are for counts up to 3 (the cursor of the general algorithm
    may run past the last row); and the uniform placer sends the indices
    [0 .. count - 1] to pairwise distinct cells within
    [1 .. rows] x [1 .. cols] of the shape [getLayoutConfig] chose. *)
Theorem plans_disjoint_and_bounded (count : Z) (s : Mosaic.ScreenSize)
    (σ : Mosaic.Locals) :
  0 ≤ count →
  (∃ p σ', Mosaic.generateMosaicLayout count s σ = Some (p, σ')
     ∧ pairwise_disjoint p
     ∧ ((count = 1 → s ≠ Mosaic.tablet) →
        ∀ l, l ∈ p →
          (1 ≤ Mosaic.row l ∧ 1 ≤ Mosaic.col l
           ∧ 1 ≤ Mosaic.rowSpan l ∧ 1 ≤ Mosaic.colSpan l)
          ∧ (∀ r c, Mosaic.covers l r c →
             1 ≤ r ∧ 1 ≤ c ≤ Mosaic.getResponsiveGridSize count s)
          ∧ (Mosaic.row l ≤ Mosaic.getResponsiveGridSize count s →
             Mosaic.within (Mosaic.getResponsiveGridSize count s) l)
          ∧ (count ≤ 3 → Mosaic.within (Mosaic.getResponsiveGridSize count s) l)))
  ∧ (∀ index o, 0 ≤ index < count →
       (∃ r c, FixedGrid.getGridPosition index (FixedGrid.getLayoutConfig count) o
               = FixedGrid.mkPos (pretty r) (pretty c)
               ∧ 1 ≤ r ≤ FixedGrid.rows (FixedGrid.getLayoutConfig count)
               ∧ 1 ≤ c ≤ FixedGrid.cols (FixedGrid.getLayoutConfig count))
       ∧ (∀ index' o', 0 ≤ index' < count → index' ≠ index →
            FixedGrid.getGridPosition index' (FixedGrid.getLayoutConfig count) o'
            ≠ FixedGrid.getGridPosition index (FixedGrid.getLayoutConfig count) o)).
Proof.
  intros Hc. split.
  - destruct (generateMosaicLayout_spec count s σ Hc)
      as (p & σ' & Hrun & _ & Hdisj & Hplaced & Hrows).
    exists p, σ'. split; [done|]. split; [done|].
    intros Hnt l Hl. specialize (Hplaced Hnt).
    rewrite Forall_forall in Hplaced. specialize (Hplaced l Hl).
    destruct (placed_within _ l Hplaced) as [Hcols Hin].
    split; [unfold placed in Hplaced; lia|].
    split; [exact Hcols|]. split; [exact Hin|].
    intros Hle. apply Hin. specialize (Hrows Hle).
    rewrite Forall_forall in Hrows. by apply Hrows.
  - intros index o Hi. split.
    + destruct (getGridPosition_on_config count index o Hi) as (Hpos & Hr & Hcol).
      eexists _, _. split; [exact Hpos|]. split; [exact Hr|exact Hcol].
    + intros index' o' Hi' Hne. by apply getGridPosition_distinct.
Qed.

Lemma plans_disjoint_and_bounded_witness :
  ∃ p σ', Mosaic.generateMosaicLayout 5 Mosaic.desktop Mosaic.no_locals = Some (p, σ')
          ∧ pairwise_disjoint p.
Proof.
  destruct (plans_disjoint_and_bounded 5 Mosaic.desktop Mosaic.no_locals ltac:(lia))
    as [(p & σ' & Hrun & Hdisj & _) _].
  exists p, σ'. split; [exact Hrun|exact Hdisj].
Defined.

(** The scenario of five photos on a desktop viewport (a grid of size 4):
    the large pattern at (1, 1), the wide one degraded to a single cell at
    (1, 3), the tall one at (1, 4), and two single cells. *)
Example mosaic_five_on_desktop :
  Mosaic.plan 5 Mosaic.desktop Mosaic.no_locals
  = Some [ Mosaic.mkLayout "large" 1 1 2 2; Mosaic.mkLayout "small" 1 3 1 1;
           Mosaic.mkLayout "tall" 1 4 3 1; Mosaic.mkLayout "small" 2 3 1 1;
           Mosaic.mkLayout "small" 3 1 1 1 ].
Proof. vm_compute. reflexivity. Qed.

(** C6, evaluated: with one photo the plan is a single placement anchored at
    (1, 1) whose two spans are 2 on a mobile viewport and 4 on every other
    one; that is the grid size of [getResponsiveGridSize] on mobile, laptop
    and desktop, but on a tablet the grid size for one photo is 3 and the
    placement spans 4 rows and 4 columns. *)
Theorem single_photo_span (s : Mosaic.ScreenSize) (σ : Mosaic.Locals) :
  ∃ span, Mosaic.plan 1 s σ = Some [ Mosaic.mkLayout "large" 1 1 span span ]
          ∧ (s ≠ Mosaic.tablet → span = Mosaic.getResponsiveGridSize 1 s)
          ∧ (s = Mosaic.tablet → span = 4 ∧ Mosaic.getResponsiveGridSize 1 s = 3).
Proof.
  destruct s.
  - exists 2. by repeat split.
  - exists 4. by repeat split.
  - exists 4. by repeat split.
  - exists 4. by repeat split.
Qed.

(** The loop of the placer reads the store it is started in: started on an
    occupied cell it places the first photo elsewhere.  The declarations at
    the head of [generateMosaicLayout] are what makes the plan independent
    of the store. *)
Lemma for_photos_reads_store :
  Mosaic.layouts <$>
    Mosaic.for_photos 1 0 4 Mosaic.default_patterns
      (Mosaic.mkLocals [] 1 1 {[ Mosaic.cellKey 1 1 ]})
  ≠ Mosaic.layouts <$>
      Mosaic.for_photos 1 0 4 Mosaic.default_patterns (Mosaic.mkLocals [] 1 1 ∅).
Proof. vm_compute. discriminate. Qed.

(** C7: the plan of an invocation of [generateMosaicLayout] depends on the
    photo count and the viewport class only, not on the store it is run in:
    two invocations with the same count and class return the same plan
    whatever earlier invocations left behind, and an invocation run in the
    store left by an identical invocation returns the same plan again; the
    occupancy set, the cursor and the result list are re-declared in every
    invocation.  The size selectors take no store at all. *)
Theorem generateMosaicLayout_deterministic (photoCount : Z) (s : Mosaic.ScreenSize)
    (σ1 σ2 : Mosaic.Locals) :
  Mosaic.plan photoCount s σ1 = Mosaic.plan photoCount s σ2
  ∧ (∀ p σ', Mosaic.generateMosaicLayout photoCount s σ1 = Some (p, σ') →
       Mosaic.plan photoCount s σ' = Some p).
Proof.
  assert (∀ σ σ', Mosaic.plan photoCount s σ = Mosaic.plan photoCount s σ') as Hind.
  { intros σ σ'. unfold Mosaic.plan, Mosaic.generateMosaicLayout.
    repeat case_match; reflexivity. }
  split; [apply Hind|].
  intros p σ' Hrun. rewrite (Hind σ' σ1). unfold Mosaic.plan. by rewrite Hrun.
Qed.

Lemma generateMosaicLayout_deterministic_witness :
  Mosaic.plan 6 Mosaic.tablet (Mosaic.mkLocals [] 3 2 {[ Mosaic.cellKey 1 1 ]})
  = Mosaic.plan 6 Mosaic.tablet Mosaic.no_locals.
Proof.
  exact (proj1 (generateMosaicLayout_deterministic 6 Mosaic.tablet
                  (Mosaic.mkLocals [] 3 2 {[ Mosaic.cellKey 1 1 ]}) Mosaic.no_locals)).
Defined.

(** * Further properties of the code *)

(** ** Selectors *)

(** X1: for a fixed number of photos, a wider window never gets a smaller
    responsive grid: the class chosen by [updateScreenSize] grows with the
    width, and the grid size grows with the class. *)
Theorem responsive_grid_monotone_in_width (count w1 w2 : Z) :
  0 ≤ count → w1 ≤ w2 →
  Mosaic.getResponsiveGridSize count (Mosaic.updateScreenSize w1)
  ≤ Mosaic.getResponsiveGridSize count (Mosaic.updateScreenSize w2).
Proof.
  intros Hc Hw. rewrite !getResponsiveGridSize_steps by done.
  unfold Mosaic.updateScreenSize.
  destruct (Z.ltb_spec w1 480), (Z.ltb_spec w1 768), (Z.ltb_spec w1 1024),
    (Z.ltb_spec w2 480), (Z.ltb_spec w2 768), (Z.ltb_spec w2 1024);
    try lia; repeat case_match; lia.
Qed.

Lemma responsive_grid_monotone_in_width_witness :
  Mosaic.getResponsiveGridSize 12 (Mosaic.updateScreenSize 800)
  ≤ Mosaic.getResponsiveGridSize 12 (Mosaic.updateScreenSize 1280).
Proof. apply responsive_grid_monotone_in_width; lia. Defined.

(** X2: on every viewport class the responsive grid size never shrinks when
    photos are added. *)
Theorem responsive_grid_monotone_in_count (c1 c2 : Z) (s : Mosaic.ScreenSize) :
  0 ≤ c1 → c1 ≤ c2 →
  Mosaic.getResponsiveGridSize c1 s ≤ Mosaic.getResponsiveGridSize c2 s.
Proof.
  intros H1 H2. rewrite !getResponsiveGridSize_steps by lia.
  destruct s; repeat case_match; lia.
Qed.

Lemma responsive_grid_monotone_in_count_witness :
  Mosaic.getResponsiveGridSize 9 Mosaic.tablet
  ≤ Mosaic.getResponsiveGridSize 10 Mosaic.tablet.
Proof. apply responsive_grid_monotone_in_count; lia. Defined.

Lemma getLayoutConfig_table (count : Z) :
  count ≤ 100 →
  1 ≤ FixedGrid.rows (FixedGrid.getLayoutConfig count) ≤ 10
  ∧ 1 ≤ FixedGrid.cols (FixedGrid.getLayoutConfig count) ≤ 10.
Proof.
  intros Hc. unfold FixedGrid.getLayoutConfig.
  repeat (case_match; [simpl; lia|]). lia.
Qed.

Lemma getLayoutConfig_beyond_table (count : Z) :
  100 < count →
  FixedGrid.getLayoutConfig count
  = FixedGrid.mkConfig (Z.sqrt_up count) (Z.sqrt_up count) "infinite"
  ∧ 11 ≤ Z.sqrt_up count.
Proof.
  intros Hc. split.
  - unfold FixedGrid.getLayoutConfig, ceil_sqrt.
    repeat (case_match; [lia|]). done.
  - assert (10 < Z.sqrt_up count); [|lia]. apply Z.sqrt_up_lt_square; lia.
Qed.

(** X3: the shape chosen by [getLayoutConfig] never shrinks when photos are
    added: rows, columns and hence the number of cells are non-decreasing in
    the photo count, across the step table and the square-root rule beyond
    100 photos. *)
Theorem getLayoutConfig_monotone (c1 c2 : Z) :
  c1 ≤ c2 →
  let cfg1 := FixedGrid.getLayoutConfig c1 in
  let cfg2 := FixedGrid.getLayoutConfig c2 in
  FixedGrid.rows cfg1 ≤ FixedGrid.rows cfg2
  ∧ FixedGrid.cols cfg1 ≤ FixedGrid.cols cfg2
  ∧ FixedGrid.rows cfg1 * FixedGrid.cols cfg1
    ≤ FixedGrid.rows cfg2 * FixedGrid.cols cfg2.
Proof.
  intros Hle. cbv zeta.
  assert (FixedGrid.rows (FixedGrid.getLayoutConfig c1)
          ≤ FixedGrid.rows (FixedGrid.getLayoutConfig c2)
          ∧ FixedGrid.cols (FixedGrid.getLayoutConfig c1)
            ≤ FixedGrid.cols (FixedGrid.getLayoutConfig c2)) as [Hr Hc].
  { destruct (Z.le_gt_cases c2 100) as [H2|H2].
    - unfold FixedGrid.getLayoutConfig.
      repeat (case_match; [repeat (case_match; [simpl; lia|]); lia|]). lia.
    - destruct (getLayoutConfig_beyond_table c2 H2) as [-> Hs2]. simpl.
      destruct (Z.le_gt_cases c1 100) as [H1|H1].
      + pose proof (getLayoutConfig_table c1 H1). lia.
      + destruct (getLayoutConfig_beyond_table c1 H1) as [-> _]. simpl.
        pose proof (Z.sqrt_up_le_mono c1 c2 Hle). lia. }
  pose proof (getLayoutConfig_capacity c1) as (? & ? & _).
  pose proof (getLayoutConfig_capacity c2) as (? & ? & _).
  simpl in *. split; [done|]. split; [done|]. nia.
Qed.

Lemma getLayoutConfig_monotone_witness :
  FixedGrid.rows (FixedGrid.getLayoutConfig 100)
  * FixedGrid.cols (FixedGrid.getLayoutConfig 100)
  ≤ FixedGrid.rows (FixedGrid.getLayoutConfig 101)
    * FixedGrid.cols (FixedGrid.getLayoutConfig 101).
Proof. apply (getLayoutConfig_monotone 100 101). lia. Defined.

(** X4: the shape of [getLayoutConfig] is square or one column wider than
    high; it has type ['single'] exactly for at most one photo; and beyond
    100 photos it is the smallest square grid that holds them: its side [g]
    satisfies [(g - 1) * (g - 1) < count <= g * g]. *)
Theorem getLayoutConfig_shape (count : Z) :
  let cfg := FixedGrid.getLayoutConfig count in
  FixedGrid.rows cfg ≤ FixedGrid.cols cfg ≤ FixedGrid.rows cfg + 1
  ∧ (FixedGrid.type cfg = "single" ↔ count ≤ 1)
  ∧ (100 < count →
     FixedGrid.rows cfg = FixedGrid.cols cfg
     ∧ (FixedGrid.rows cfg - 1) * (FixedGrid.rows cfg - 1) < count
       ≤ FixedGrid.rows cfg * FixedGrid.rows cfg).
Proof.
  cbv zeta. split; [|split].
  - unfold FixedGrid.getLayoutConfig. repeat (case_match; [simpl; lia|]). simpl. lia.
  - unfold FixedGrid.getLayoutConfig.
    case_match; [simpl; split; [lia|done]|].
    repeat (case_match; [simpl; split; [done|lia]|]). simpl. split; [done|lia].
  - intros Hc. destruct (getLayoutConfig_beyond_table count Hc) as [-> _]. simpl.
    split; [done|]. pose proof (Z.sqrt_up_spec count ltac:(lia)). lia.
Qed.

(** X5: for 1 to 36 photos [getGridSize] is the smallest square grid that
    holds them; an empty collection gets size 2 and every collection of more
    than 36 photos size 6; from one photo on, the size never shrinks when a
    photo is added. *)
Theorem getGridSize_least_square (photos : list Photo) :
  let count := Z.of_nat (length photos) in
  let g := SquareGrid.getGridSize photos in
  (1 ≤ count ≤ 36 → (g - 1) * (g - 1) < count ≤ g * g)
  ∧ (count = 0 → g = 2) ∧ (36 < count → g = 6)
  ∧ (∀ photo, 1 ≤ count → g ≤ SquareGrid.getGridSize (photos ++ [photo])).
Proof.
  cbv zeta. split; [|split; [|split]].
  - rewrite getGridSize_steps. cbv zeta. intros Hc. repeat case_match; lia.
  - rewrite getGridSize_steps. cbv zeta. intros Hc. repeat case_match; lia.
  - rewrite getGridSize_steps. cbv zeta. intros Hc. repeat case_match; lia.
  - intros photo Hc. rewrite !getGridSize_steps. cbv zeta.
    rewrite length_app, Nat2Z.inj_add. change (Z.of_nat (length [photo])) with 1.
    generalize dependent (Z.of_nat (length photos)). intros n Hn.
    repeat case_match; lia.
Qed.

Lemma getGridSize_least_square_witness :
  (SquareGrid.getGridSize (take 20 sample_photos) - 1)
  * (SquareGrid.getGridSize (take 20 sample_photos) - 1) < 20
  ≤ SquareGrid.getGridSize (take 20 sample_photos)
    * SquareGrid.getGridSize (take 20 sample_photos).
Proof.
  pose proof (getGridSize_least_square (take 20 sample_photos)) as [H _].
  cbv zeta in H. change (Z.of_nat (length (take 20 sample_photos))) with 20 in H.
  apply H. lia.
Defined.

(** X6: the class name of the collage container agrees with the grid size
    used for the export: one photo is ['single'] with size 1, and from two
    photos on the class is ['grid-NxN'] for the size [N] of [getGridSize];
    only the empty collection differs (['empty'], while [getGridSize] is
    2). *)
Theorem getCollageLayout_matches_getGridSize (photos : list Photo) :
  let count := Z.of_nat (length photos) in
  let g := SquareGrid.getGridSize photos in
  (2 ≤ count →
   SquareGrid.getCollageLayout photos = "grid-" +:+ pretty g +:+ "x" +:+ pretty g)
  ∧ (count = 1 → SquareGrid.getCollageLayout photos = "single" ∧ g = 1)
  ∧ (count = 0 → SquareGrid.getCollageLayout photos = "empty" ∧ g = 2).
Proof.
  cbv zeta. unfold SquareGrid.getCollageLayout, SquareGrid.getGridSize. cbv zeta.
  generalize (Z.of_nat (length photos)). intros n.
  split; [|split]; intros Hn; repeat case_match; try lia; done.
Qed.

Lemma getCollageLayout_matches_getGridSize_witness :
  SquareGrid.getCollageLayout (take 7 sample_photos) = "grid-3x3".
Proof.
  pose proof (getCollageLayout_matches_getGridSize (take 7 sample_photos)) as [H _].
  cbv zeta in H. change (Z.of_nat (length (take 7 sample_photos))) with 7 in H.
  rewrite H by lia. reflexivity.
Defined.

(** X7: [downloadCollage] does nothing for an empty collection; with 1 to
    36 photos the composite holds every photo exactly once and in order; in
    every case it holds [min (count, gridSize * gridSize)] photos. *)
Theorem downloadCollage_complete (photos : list Photo) :
  let count := Z.of_nat (length photos) in
  let g := SquareGrid.getGridSize photos in
  (count = 0 → SquareGrid.downloadCollage photos = None)
  ∧ (1 ≤ count ≤ 36 → SquareGrid.downloadCollage photos = Some photos)
  ∧ (1 ≤ count →
     ∃ tiles, SquareGrid.downloadCollage photos = Some tiles
              ∧ Z.of_nat (length tiles) = Z.min count (g * g)).
Proof.
  cbv zeta. unfold SquareGrid.downloadCollage. split; [|split]; intros Hc.
  - by rewrite Hc.
  - case_match; [lia|]. rewrite forEach_append_take by lia. simpl.
    rewrite take_ge; [done|]. rewrite getGridSize_steps. cbv zeta.
    repeat case_match; lia.
  - case_match; [lia|]. rewrite forEach_append_take by lia. simpl.
    eexists. split; [done|]. rewrite length_take.
    pose proof (Z.square_nonneg (SquareGrid.getGridSize photos)). lia.
Qed.

Lemma downloadCollage_complete_witness :
  SquareGrid.downloadCollage (take 30 sample_photos) = Some (take 30 sample_photos).
Proof.
  pose proof (downloadCollage_complete (take 30 sample_photos)) as (_ & H & _).
  cbv zeta in H. change (Z.of_nat (length (take 30 sample_photos))) with 30 in H.
  apply H. lia.
Defined.

(** X8: for a non-empty collection the tile side computed by
    [downloadCollage] is between 118 and 760 pixels, and [gridSize] tiles
    with the 40 pixels of padding and the 10 pixels per gap that the formula
    reserves fit into the 800 pixel container, while tiles one pixel larger
    would not. *)
Theorem imageSize_fits (photos : list Photo) :
  1 ≤ Z.of_nat (length photos) →
  let g := SquareGrid.getGridSize photos in
  let side := SquareGrid.imageSize photos in
  118 ≤ side ≤ 760
  ∧ g * side + (g - 1) * 10 + 40 ≤ 800 < g * (side + 1) + (g - 1) * 10 + 40.
Proof.
  intros Hc. cbv zeta. unfold SquareGrid.imageSize. cbv zeta.
  rewrite getGridSize_steps. cbv zeta.
  repeat case_match; try lia; vm_compute; repeat split; (discriminate || reflexivity).
Qed.

Lemma imageSize_fits_witness :
  118 ≤ SquareGrid.imageSize sample_photos ≤ 760.
Proof.
  apply (imageSize_fits sample_photos). vm_compute. discriminate.
Defined.

(** ** The uniform placer, backwards *)

(** X9: on a config that is not ['single'] the cell of an index determines
    the index: the placer returns the decimal numerals of a row [r >= 1] and
    a column [c] in [1 .. cols] with [(r - 1) * cols + (c - 1) = index], and
    every such cell is the cell of that index, so the cells are filled row
    by row without a gap. *)
Theorem getGridPosition_round_trip (cols : Z) (type : string) :
  1 ≤ cols → type ≠ "single" →
  (∀ index rows o, 0 ≤ index →
     ∃ r c, FixedGrid.getGridPosition index (FixedGrid.mkConfig rows cols type) o
            = FixedGrid.mkPos (pretty r) (pretty c)
            ∧ 1 ≤ r ∧ 1 ≤ c ≤ cols ∧ (r - 1) * cols + (c - 1) = index)
  ∧ (∀ r c rows o, 1 ≤ r → 1 ≤ c ≤ cols →
       FixedGrid.getGridPosition ((r - 1) * cols + (c - 1))
         (FixedGrid.mkConfig rows cols type) o
       = FixedGrid.mkPos (pretty r) (pretty c)).
Proof.
  intros Hcols Ht. split.
  - intros index rows o Hi. rewrite getGridPosition_formula by done. simpl.
    rewrite Z.rem_mod_nonneg by lia. eexists _, _. split; [done|].
    pose proof (Z.mod_pos_bound index cols ltac:(lia)).
    pose proof (Z.div_pos index cols ltac:(lia) ltac:(lia)).
    pose proof (Z.div_mod index cols ltac:(lia)). lia.
  - intros r c rows o Hr Hc. rewrite getGridPosition_formula by done. simpl.
    rewrite Z.rem_mod_nonneg by nia.
    assert (((r - 1) * cols + (c - 1)) / cols = r - 1) as ->.
    { symmetry. apply (Z.div_unique _ _ _ (c - 1)); lia. }
    assert (((r - 1) * cols + (c - 1)) `mod` cols = c - 1) as ->.
    { symmetry. apply (Z.mod_unique _ _ (r - 1)); lia. }
    by replace (r - 1 + 1) with r by lia; replace (c - 1 + 1) with c by lia.
Qed.

Lemma getGridPosition_round_trip_witness :
  FixedGrid.getGridPosition ((3 - 1) * 4 + (2 - 1)) (FixedGrid.mkConfig 3 4 "complex") ""
  = FixedGrid.mkPos (pretty 3) (pretty 2).
Proof.
  apply (getGridPosition_round_trip 4 "complex"); [lia|discriminate|lia|lia].
Defined.

(** ** Operations on the collection *)

(** X10: removals commute and repeat harmlessly: removing two ids in either
    order gives the same collection, removing an id twice is the same as
    removing it once, and after a removal no photo with that id is left. *)
Theorem removePhoto_compose (i j : Qc) (photos : list Photo) :
  removePhoto i (removePhoto j photos) = removePhoto j (removePhoto i photos)
  ∧ removePhoto i (removePhoto i photos) = removePhoto i photos
  ∧ i ∉ id <$> removePhoto i photos.
Proof.
  split; [|split].
  - induction photos as [|p photos IH]; [done|].
    rewrite !removePhoto_cons.
    destruct (decide (id p = j)), (decide (id p = i));
      rewrite ?removePhoto_cons, ?decide_True, ?decide_False by done; congruence.
  - induction photos as [|p photos IH]; [done|].
    rewrite removePhoto_cons. case_decide; [done|].
    rewrite removePhoto_cons, decide_False by done. by rewrite IH.
  - intros (p & Hid & Hp)%list_elem_of_fmap.
    unfold removePhoto in Hp. apply list_elem_of_filter in Hp as [Hne _]. by apply Hne.
Qed.

Lemma removePhoto_app (i : Qc) (l1 l2 : list Photo) :
  removePhoto i (l1 ++ l2) = removePhoto i l1 ++ removePhoto i l2.
Proof. unfold removePhoto. apply filter_app. Qed.

Lemma removePhoto_absent (i : Qc) (photos : list Photo) :
  i ∉ id <$> photos → removePhoto i photos = photos.
Proof.
  intros Hnin. induction photos as [|p photos IH]; [done|].
  rewrite fmap_cons in Hnin. apply not_elem_of_cons in Hnin as [Hne Hnin].
  rewrite removePhoto_cons, decide_False by done. by rewrite IH.
Qed.

Lemma removePhoto_length (i : Qc) (photos : list Photo) :
  (length (removePhoto i photos) + length (filter (λ p, id p = i) photos)
   = length photos)%nat.
Proof.
  induction photos as [|p photos IH]; [done|].
  rewrite removePhoto_cons, filter_cons. case_decide; simpl; lia.
Qed.

(** X11: ingesting a photo and removing it again restores the collection,
    provided its id (for an upload the binary64 sum of clock reading and
    draw) is not already in use: this holds for a webcam capture
    and a file upload of the fixed-grid variant and for [addPhoto] of the
    square-grid variant.  When the id is in use, removing the new photo
    removes the older photos with that id as well, so the collection ends up
    shorter than before the ingestion. *)
Theorem ingest_then_remove (now : Z) (rnd : Qc) (source : string) (w h : Z)
    (prev : list Photo) :
  (Qc_of_Z now ∉ id <$> prev →
   removePhoto (Qc_of_Z now) (FixedGrid.capturePhoto now source w h prev) = prev)
  ∧ (fadd (Qc_of_Z now) rnd ∉ id <$> prev →
     removePhoto (fadd (Qc_of_Z now) rnd)
       (FixedGrid.handleFileUpload_onload now rnd source w h prev) = prev
     ∧ removePhoto (fadd (Qc_of_Z now) rnd) (SquareGrid.addPhoto now rnd source prev)
       = prev)
  ∧ (Qc_of_Z now ∈ id <$> prev →
     (length (removePhoto (Qc_of_Z now) (FixedGrid.capturePhoto now source w h prev))
      < length prev)%nat).
Proof.
  unfold FixedGrid.capturePhoto, FixedGrid.handleFileUpload_onload, SquareGrid.addPhoto.
  split; [|split].
  - intros Hnin. rewrite removePhoto_app, removePhoto_absent by done.
    rewrite removePhoto_cons, decide_True by done. apply app_nil_r.
  - intros Hnin. rewrite !removePhoto_app, removePhoto_absent by done.
    rewrite !removePhoto_cons, !decide_True by done. by rewrite app_nil_r.
  - intros Hin. rewrite removePhoto_app, removePhoto_cons, decide_True by done.
    rewrite app_nil_r.
    pose proof (removePhoto_length (Qc_of_Z now) prev) as Hlen.
    apply list_elem_of_fmap in Hin as (p & Hp & Hin).
    assert (p ∈ filter (λ p, id p = Qc_of_Z now) prev) as Hf
      by (by apply list_elem_of_filter).
    destruct (filter (λ p, id p = Qc_of_Z now) prev); [by apply elem_of_nil in Hf|].
    simpl in Hlen. lia.
Qed.

Lemma ingest_then_remove_witness :
  removePhoto (Qc_of_Z 77) (FixedGrid.capturePhoto 77 "a" 4 3 sample_photos)
  = sample_photos.
Proof.
  apply (ingest_then_remove 77 0%Qc "a" 4 3 sample_photos).
  intros (p & Hid & Hp)%list_elem_of_fmap.
  apply list_elem_of_fmap in Hp as (n & -> & Hn). apply elem_of_seq in Hn.
  simpl in Hid. apply (f_equal (λ q : Qc, Qnum (this q))) in Hid. simpl in Hid. lia.
Defined.

(** X12: when the ids of the collection are pairwise distinct, removing the
    id of the photo at some position deletes exactly that position and
    nothing else. *)
Theorem removePhoto_deletes_one (photos : list Photo) (k : nat) (p : Photo) :
  NoDup (id <$> photos) → photos !! k = Some p →
  removePhoto (id p) photos = delete k photos.
Proof.
  revert k. induction photos as [|q photos IH]; intros k Hnd Hk; [done|].
  rewrite fmap_cons in Hnd. apply NoDup_cons in Hnd as [Hq Hnd].
  rewrite removePhoto_cons. destruct k as [|k]; simpl in *.
  - injection Hk as ->. rewrite decide_True by done. by apply removePhoto_absent.
  - rewrite decide_False.
    + f_equal. by apply IH.
    + intros Heq. apply Hq. rewrite Heq. apply list_elem_of_fmap_2.
      by eapply list_elem_of_lookup_2.
Qed.

Lemma removePhoto_deletes_one_witness :
  removePhoto (Qc_of_Z 1) (take 3 sample_photos)
  = [ mkPhoto (Qc_of_Z 0) "" "" 0 0; mkPhoto (Qc_of_Z 2) "" "" 0 0 ].
Proof.
  apply (removePhoto_deletes_one (take 3 sample_photos) 1
           (mkPhoto (Qc_of_Z 1) "" "" 0 0)); [|reflexivity].
  apply (bool_decide_unpack _). vm_compute. reflexivity.
Defined.

(** X13: throughout a session of the fixed-grid variant every photo in the
    collection carries the orientation computed from its own dimensions:
    landscape exactly when it is wider than high, portrait exactly when it is
    higher than wide, square otherwise; removals and clears never disturb
    this. *)
Theorem orientation_kept (events : list FixedGrid.Event) (p : Photo) :
  p ∈ FixedGrid.run events →
  (orientation p = "landscape" ↔ height p < width p)
  ∧ (orientation p = "portrait" ↔ width p < height p)
  ∧ (orientation p = "square" ↔ width p = height p).
Proof.
  assert (orientation p = orientation_of (width p) (height p) →
          (orientation p = "landscape" ↔ height p < width p)
          ∧ (orientation p = "portrait" ↔ width p < height p)
          ∧ (orientation p = "square" ↔ width p = height p)) as Hsuff.
  { intros ->. unfold orientation_of.
    destruct (Z.ltb_spec (height p) (width p)), (Z.ltb_spec (width p) (height p));
      repeat split; intros; try lia; try done. }
  intros Hin. apply Hsuff. clear Hsuff. revert p Hin. unfold FixedGrid.run.
  induction events as [|e events IH] using rev_ind; intros p Hin.
  { by apply elem_of_nil in Hin. }
  rewrite foldl_app in Hin. simpl in Hin.
  destruct e as [now s w h|now rnd s w h|i|]; simpl in Hin.
  - apply elem_of_app in Hin as [Hin|Hin]; [by apply IH|].
    by apply list_elem_of_singleton in Hin as ->.
  - apply elem_of_app in Hin as [Hin|Hin]; [by apply IH|].
    by apply list_elem_of_singleton in Hin as ->.
  - unfold removePhoto in Hin. apply list_elem_of_filter in Hin as [_ Hin]. by apply IH.
  - by apply elem_of_nil in Hin.
Qed.

Lemma orientation_kept_witness :
  orientation (mkPhoto (Qc_of_Z 6) "c" "portrait" 3 4) = "portrait" ↔ 3 < 4.
Proof.
  apply (orientation_kept
           [ FixedGrid.Capture 5 "a" 4 3; FixedGrid.Remove (Qc_of_Z 5);
             FixedGrid.Capture 6 "c" 3 4 ] (mkPhoto (Qc_of_Z 6) "c" "portrait" 3 4)).
  vm_compute. left.
Defined.

(** ** More of what the placer loop keeps *)

Lemma lin_inj (g r c r' c' : Z) :
  1 ≤ c ≤ g → 1 ≤ c' ≤ g → r * g + c = r' * g + c' → r = r' ∧ c = c'.
Proof. intros Hc Hc' Heq. assert (r = r') by nia. subst. lia. Qed.

Lemma lin_lex (g r c r' c' : Z) :
  1 ≤ c ≤ g → 1 ≤ c' ≤ g →
  r * g + c < r' * g + c' ↔ r < r' ∨ (r = r' ∧ c < c').
Proof. intros Hc Hc'. split; [intros Hlt|intros [Hlt|[-> Hlt]]]; nia. Qed.

Section placer.
Variable g : Z.
Hypothesis g_pos : 1 ≤ g.
Variable patterns : list Mosaic.Pattern.

(** The cells the scan passes are occupied. *)
Lemma skip_occupied_passes (fuel : nat) (σ σ' : Mosaic.Locals) :
  cursor_ok g σ → Mosaic.skip_occupied fuel g σ = Some σ' →
  lin g σ ≤ lin g σ'
  ∧ ∀ r c, 1 ≤ c ≤ g → lin g σ ≤ r * g + c < lin g σ' →
      Mosaic.cellKey r c ∈ Mosaic.occupiedCells σ.
Proof.
  revert σ. induction fuel as [|fuel IH]; intros σ Hok; [done|].
  unfold Mosaic.skip_occupied; fold Mosaic.skip_occupied.
  case_decide as Hocc.
  - intros Hrun. destruct (advance_cursor g g_pos σ Hok) as [Hok' Hlin].
    destruct (IH _ Hok' Hrun) as [Hle Hpassed]. split; [lia|].
    intros r c Hc Hrange.
    destruct (decide (r * g + c = lin g σ)) as [Heq|Hne].
    + destruct Hok as [_ Hcol]. apply lin_inj in Heq as [-> ->]; done.
    + rewrite <- (advance_occupiedCells g σ). apply Hpassed; [done|lia].
  - intros [= <-]. split; [lia|]. intros r c _ Hrange. lia.
Qed.

Lemma skip_inv2 (σ σ1 : Mosaic.Locals) :
  Inv2 g patterns σ → cursor_ok g σ →
  Mosaic.skip_occupied (S (size (Mosaic.occupiedCells σ))) g σ = Some σ1 →
  Mosaic.layouts σ1 = Mosaic.layouts σ →
  Mosaic.occupiedCells σ1 = Mosaic.occupiedCells σ →
  Inv2 g patterns σ1.
Proof.
  intros [Hsorted Hbehind Hfilled Hcovered Hshapes] Hok Hrun Hl Ho.
  destruct (skip_occupied_passes _ _ _ Hok Hrun) as [Hle Hpassed].
  split; rewrite ?Hl, ?Ho; try done.
  - intros l Hin. specialize (Hbehind l Hin). lia.
  - intros r c Hr Hc Hlt.
    destruct (Z.lt_ge_cases (r * g + c) (lin g σ)); [by apply Hfilled|].
    apply Hpassed; [done|lia].
Qed.

(** Pushing a placement anchored at the cursor, marking exactly its cells
    and moving the cursor on keeps the second invariant. *)
Lemma extend_inv2 (σ : Mosaic.Locals) (l : Mosaic.Layout) (occ' : gset string) :
  Inv2 g patterns σ → cursor_ok g σ →
  Mosaic.row l = Mosaic.currentRow σ → Mosaic.col l = Mosaic.currentCol σ →
  Mosaic.covers l (Mosaic.currentRow σ) (Mosaic.currentCol σ) →
  (∀ k, k ∈ occ' ↔ k ∈ Mosaic.occupiedCells σ
                   ∨ ∃ r c, Mosaic.covers l r c ∧ k = Mosaic.cellKey r c) →
  shape_ok patterns (length (Mosaic.layouts σ)) l →
  let σ' := Mosaic.advance g
              (Mosaic.mkLocals (Mosaic.layouts σ ++ [l]) (Mosaic.currentRow σ)
                 (Mosaic.currentCol σ) occ') in
  Inv2 g patterns σ' ∧ cursor_after_last g σ'.
Proof.
  intros [Hsorted Hbehind Hfilled Hcovered Hshapes] Hok Hrow Hcol Hanchor Hocc Hshape σ'.
  assert (anchor_lin g l = lin g σ) as Hal by (unfold anchor_lin, lin; congruence).
  assert (lin g σ' = lin g σ + 1) as Hlin.
  { subst σ'. by destruct (advance_cursor g g_pos
      (Mosaic.mkLocals (Mosaic.layouts σ ++ [l]) (Mosaic.currentRow σ)
         (Mosaic.currentCol σ) occ') Hok) as [_ ->]. }
  assert (Mosaic.layouts σ' = Mosaic.layouts σ ++ [l]) as Hl'
    by (subst σ'; by rewrite advance_layouts).
  assert (Mosaic.occupiedCells σ' = occ') as Ho'
    by (subst σ'; by rewrite advance_occupiedCells).
  clearbody σ'. split; [split|].
  - rewrite Hl'. intros i j li lj Hi Hj Hij.
    apply lookup_snoc_Some in Hj as [[Hj1 Hj2]|[Hj1 <-]].
    + rewrite lookup_app_l in Hi by lia. by eapply Hsorted.
    + rewrite lookup_app_l in Hi by lia. rewrite Hal.
      apply Hbehind. by eapply list_elem_of_lookup_2.
  - rewrite Hl', Hlin. intros l0 [Hin|Hin]%elem_of_app.
    + specialize (Hbehind l0 Hin). lia.
    + apply list_elem_of_singleton in Hin as ->. lia.
  - rewrite Ho', Hlin. intros r c Hr Hc Hlt. apply Hocc.
    destruct (decide (r * g + c = lin g σ)) as [Heq|Hne].
    + right. destruct Hok as [_ Hcc]. apply lin_inj in Heq as [-> ->]; [|done..].
      by eexists _, _.
    + left. apply Hfilled; [done..|lia].
  - rewrite Ho', Hl'. intros k [Hk|(r & c & Hc & ->)]%Hocc.
    + destruct (Hcovered k Hk) as (l0 & r & c & Hin & Hc & Hr & ->).
      exists l0, r, c. split; [apply elem_of_app; by left|done].
    + exists l, r, c. split; [apply elem_of_app; right; by apply list_elem_of_singleton|].
      split; [done|]. split; [|done]. destruct Hok as [? _], Hc as [[? _] _]. lia.
  - rewrite Hl'. intros i l0 Hi.
    apply lookup_snoc_Some in Hi as [[Hi1 Hi2]|[-> <-]]; [by apply Hshapes|done].
  - intros l0. rewrite Hl', last_snoc. intros [= <-]. lia.
Qed.

End placer.

Section placer_loop.
Variable g : Z.
Hypothesis g_pos : 1 ≤ g.
Variable patterns : list Mosaic.Pattern.
Hypothesis patterns_ok : Forall spans_positive patterns.
Hypothesis patterns_ne : patterns ≠ [].

Lemma place_inv2 (pattern : Mosaic.Pattern) (σ : Mosaic.Locals) :
  Inv2 g patterns σ → cursor_ok g σ → spans_positive pattern →
  patterns !! (length (Mosaic.layouts σ) `mod` length patterns)%nat = Some pattern →
  Inv2 g patterns (Mosaic.place g pattern σ)
  ∧ cursor_after_last g (Mosaic.place g pattern σ).
Proof.
  intros HI Hok [Hrs Hcs] Hpat.
  assert (Inv2 g patterns (Mosaic.advance g (Mosaic.place_small σ))
          ∧ cursor_after_last g (Mosaic.advance g (Mosaic.place_small σ))) as Hsmall.
  { apply (extend_inv2 g g_pos patterns σ (Mosaic.mkLayout "small" _ _ 1 1)
             ({[ Mosaic.cellKey (Mosaic.currentRow σ) (Mosaic.currentCol σ) ]}
              ∪ Mosaic.occupiedCells σ)); [done..| | |].
    - unfold Mosaic.covers. simpl. lia.
    - intros k. rewrite elem_of_union, elem_of_singleton. split.
      + intros [->|Hk]; [|by left]. right. eexists _, _. split; [|done].
        unfold Mosaic.covers. simpl. lia.
      + intros [Hk|(r & c & [Hr Hc] & ->)]; [by right|]. left. simpl in *.
        by replace r with (Mosaic.currentRow σ) by lia;
           replace c with (Mosaic.currentCol σ) by lia.
    - by left. }
  unfold Mosaic.place. case_match; [done|]. case_match eqn:Hfit; [|done].
  unfold Mosaic.mark. rewrite mark_fold.
  apply (extend_inv2 g g_pos patterns σ
           (Mosaic.mkLayout (Mosaic.p_size pattern) (Mosaic.currentRow σ)
              (Mosaic.currentCol σ) (Mosaic.p_rowSpan pattern) (Mosaic.p_colSpan pattern)));
    [done..| | |].
  - unfold Mosaic.covers. simpl. lia.
  - intros k. rewrite elem_of_union, elem_of_list_to_set, list_elem_of_fmap. simpl.
    split.
    + intros [([r c] & -> & Hin)|Hk]; [|by left]. right. exists r, c. split; [|done].
      apply elem_of_cells in Hin. unfold Mosaic.covers. simpl. lia.
    + intros [Hk|(r & c & [Hr Hc] & ->)]; [by right|]. left. exists (r, c).
      split; [done|]. apply elem_of_cells. simpl in *. lia.
  - right. exists pattern. by repeat split.
Qed.

Lemma iteration_inv2 (σ σ' : Mosaic.Locals) :
  Inv g σ → Inv2 g patterns σ →
  Mosaic.iteration g patterns (Z.of_nat (length (Mosaic.layouts σ))) σ = Some σ' →
  Inv2 g patterns σ' ∧ cursor_after_last g σ'.
Proof.
  intros HI HI2. unfold Mosaic.iteration.
  assert (Z.to_nat (Z.rem (Z.of_nat (length (Mosaic.layouts σ)))
                      (Z.of_nat (length patterns)))
          = (length (Mosaic.layouts σ) `mod` length patterns)%nat) as ->.
  { rewrite Z.rem_mod_nonneg by (destruct patterns; [done|simpl; lia]).
    by rewrite <- Nat2Z.inj_mod, Nat2Z.id. }
  destruct (patterns !! _) as [pattern|] eqn:Hp; [|done]. simpl.
  destruct (skip_occupied_total g g_pos σ (inv_cursor _ _ HI))
    as (σ1 & Hrun & Hl & Ho & Hcur & Hfree).
  rewrite Hrun. simpl. intros [= <-].
  apply place_inv2.
  - exact (skip_inv2 g g_pos patterns σ σ1 HI2 (inv_cursor _ _ HI) Hrun Hl Ho).
  - done.
  - eapply Forall_forall in patterns_ok; [done|]. by eapply list_elem_of_lookup_2.
  - by rewrite Hl.
Qed.

Lemma for_photos_inv2 (n : nat) (σ : Mosaic.Locals) :
  Inv g σ → Inv2 g patterns σ → cursor_after_last g σ →
  ∃ σ', Mosaic.for_photos n (Z.of_nat (length (Mosaic.layouts σ))) g patterns σ = Some σ'
        ∧ Inv g σ' ∧ Inv2 g patterns σ' ∧ cursor_after_last g σ'
        ∧ length (Mosaic.layouts σ') = (length (Mosaic.layouts σ) + n)%nat
        ∧ Mosaic.layouts σ `prefix_of` Mosaic.layouts σ'.
Proof.
  revert σ. induction n as [|n IH]; intros σ HI HI2 Hlast; simpl.
  - exists σ. split; [done|]. split; [done|]. split; [done|]. split; [done|].
    split; [lia|done].
  - destruct (iteration_inv g g_pos patterns (Z.of_nat (length (Mosaic.layouts σ)))
                σ HI patterns_ok patterns_ne ltac:(lia)) as (σ1 & l & Hrun & HI1 & Hl).
    rewrite Hrun. simpl.
    destruct (iteration_inv2 σ σ1 HI HI2 Hrun) as [HI21 Hlast1].
    destruct (IH σ1 HI1 HI21 Hlast1) as (σ' & Hrun' & HI' & HI2' & Hlast' & Hlen & Hpre).
    replace (Z.of_nat (length (Mosaic.layouts σ)) + 1)
      with (Z.of_nat (length (Mosaic.layouts σ1)))
      by (rewrite Hl, length_app; simpl; lia).
    exists σ'. split; [done|]. split; [done|]. split; [done|]. split; [done|].
    split.
    + rewrite Hlen, Hl, length_app. simpl. lia.
    + etrans; [|exact Hpre]. rewrite Hl. by apply prefix_app_r.
Qed.

End placer_loop.

Lemma Inv2_initial (g : Z) (patterns : list Mosaic.Pattern) :
  Inv2 g patterns (Mosaic.mkLocals [] 1 1 ∅)
  ∧ cursor_after_last g (Mosaic.mkLocals [] 1 1 ∅).
Proof.
  split; [split|]; simpl.
  - intros i j li lj Hi. by rewrite lookup_nil in Hi.
  - intros l Hin. by apply elem_of_nil in Hin.
  - intros r c Hr Hc. unfold lin. simpl. nia.
  - intros k Hk. by apply not_elem_of_empty in Hk.
  - intros i l Hi. by rewrite lookup_nil in Hi.
  - intros l. done.
Qed.

(** From four photos on (and for none) the plan is what the loop leaves in
    [layouts], and the final store satisfies both invariants. *)
Lemma generateMosaicLayout_loop (count : Z) (s : Mosaic.ScreenSize) (σ : Mosaic.Locals) :
  4 ≤ count ∨ count = 0 →
  ∃ σ', Mosaic.generateMosaicLayout count s σ = Some (Mosaic.layouts σ', σ')
        ∧ Inv (Mosaic.getResponsiveGridSize count s) σ'
        ∧ Inv2 (Mosaic.getResponsiveGridSize count s) (patterns_of s) σ'
        ∧ cursor_after_last (Mosaic.getResponsiveGridSize count s) σ'
        ∧ length (Mosaic.layouts σ') = Z.to_nat count.
Proof.
  intros Hc. unfold Mosaic.generateMosaicLayout.
  replace (count =? 1) with false by lia.
  replace (count =? 2) with false by lia.
  replace (count =? 3) with false by lia.
  rewrite !andb_false_r.
  pose proof (getResponsiveGridSize_bounds count s ltac:(lia)) as [Hg _]. simpl in Hg.
  set (g := Mosaic.getResponsiveGridSize count s) in *.
  assert (1 ≤ g) as Hg1 by (destruct s; lia).
  destruct (patterns_positive s) as [Hpos Hne].
  destruct (Inv2_initial g (patterns_of s)) as [HI2 Hlast].
  destruct (for_photos_inv2 g Hg1 (patterns_of s) Hpos Hne (Z.to_nat count)
              _ (Inv_initial g Hg1) HI2 Hlast)
    as (σ' & Hrun & HI & HI2' & Hlast' & Hlen & _).
  cbv zeta. fold g.
  change (Mosaic.set_occupiedCells ∅ _) with (Mosaic.mkLocals [] 1 1 ∅).
  change (Z.of_nat (length _)) with 0 in Hrun.
  unfold patterns_of in Hrun. rewrite Hrun. simpl.
  exists σ'. split; [done|]. split; [done|]. split; [done|]. split; [done|].
  by rewrite Hlen.
Qed.

(** ** The mosaic plan, further *)

Lemma placed_col_range (g : Z) (l : Mosaic.Layout) :
  placed g l → 1 ≤ Mosaic.row l ∧ 1 ≤ Mosaic.col l ≤ g
               ∧ Mosaic.covers l (Mosaic.row l) (Mosaic.col l).
Proof. unfold placed, Mosaic.covers. lia. Qed.

Lemma anchor_lin_before (g : Z) (l1 l2 : Mosaic.Layout) :
  placed g l1 → placed g l2 →
  anchor_lin g l1 < anchor_lin g l2 ↔ anchor_before l1 l2.
Proof.
  intros (_ & H1 & _)%placed_col_range (_ & H2 & _)%placed_col_range.
  unfold anchor_lin, anchor_before. by apply lin_lex.
Qed.

(** X14: in every plan the anchors follow one another in reading order: a
    later photo is anchored in a later row, or in the same row further to the
    right; the photos therefore appear in the order in which they were
    ingested. *)
Theorem mosaic_anchors_in_reading_order (count : Z) (s : Mosaic.ScreenSize)
    (σ : Mosaic.Locals) :
  0 ≤ count →
  ∃ p σ', Mosaic.generateMosaicLayout count s σ = Some (p, σ')
          ∧ ∀ (i j : nat) li lj, p !! i = Some li → p !! j = Some lj → (i < j)%nat →
              anchor_before li lj.
Proof.
  intros Hc.
  destruct (decide (count = 1 ∨ count = 2 ∨ count = 3)) as [Hsmall|Hbig].
  - destruct Hsmall as [-> | [-> | ->]]; destruct s;
      (eexists _, _; split; [reflexivity|]; intros i j li lj Hi Hj Hij;
       destruct i as [|[|[|i]]], j as [|[|[|j]]]; simplify_eq/=; try lia;
       unfold anchor_before; vm_compute;
       first [left; reflexivity | right; split; reflexivity]).
  - destruct (generateMosaicLayout_loop count s σ ltac:(lia))
      as (σ' & Hrun & HI & HI2 & _ & _).
    eexists _, _. split; [exact Hrun|]. intros i j li lj Hi Hj Hij.
    pose proof (inv_placed _ _ HI) as Hplaced. rewrite Forall_forall in Hplaced.
    apply (anchor_lin_before (Mosaic.getResponsiveGridSize count s)).
    + apply Hplaced. by eapply list_elem_of_lookup_2.
    + apply Hplaced. by eapply list_elem_of_lookup_2.
    + by eapply (inv2_sorted _ _ _ HI2).
Qed.

Lemma mosaic_anchors_in_reading_order_witness :
  ∃ p σ', Mosaic.generateMosaicLayout 9 Mosaic.laptop Mosaic.no_locals = Some (p, σ')
          ∧ ∀ (i j : nat) li lj, p !! i = Some li → p !! j = Some lj → (i < j)%nat →
              anchor_before li lj.
Proof.
  exact (mosaic_anchors_in_reading_order 9 Mosaic.laptop Mosaic.no_locals ltac:(lia)).
Defined.

Lemma increasing_lower_bound {A} (f : A → Z) (l : list A) :
  (∀ (i j : nat) x y, l !! i = Some x → l !! j = Some y → (i < j)%nat → f x < f y) →
  ∀ (k : nat) x0 xk, l !! 0%nat = Some x0 → l !! k = Some xk → f x0 + Z.of_nat k ≤ f xk.
Proof.
  intros Hinc k. induction k as [|k IH]; intros x0 xk H0 Hk.
  - assert (x0 = xk) as -> by congruence. lia.
  - destruct (lookup_lt_is_Some_2 l k) as [x Hx].
    { apply lookup_lt_Some in Hk. lia. }
    specialize (IH x0 x H0 Hx). specialize (Hinc k (S k) x xk Hx Hk ltac:(lia)). lia.
Qed.

(** X15: unless the count is 1 on a tablet viewport, the whole plan lies
    within the grid exactly when its last placement is anchored in one of
    the rows of the grid; and a plan that lies within the grid never has more
    placements than the grid has cells, so for more than
    [gridSize * gridSize] photos some placement always lies outside. *)
Theorem mosaic_fits_iff_last_anchor_inside (count : Z) (s : Mosaic.ScreenSize)
    (σ : Mosaic.Locals) :
  0 ≤ count →
  ∃ p σ', Mosaic.generateMosaicLayout count s σ = Some (p, σ')
    ∧ ((count = 1 → s ≠ Mosaic.tablet) →
       (Forall (Mosaic.within (Mosaic.getResponsiveGridSize count s)) p
        ↔ ∀ l, last p = Some l → Mosaic.row l ≤ Mosaic.getResponsiveGridSize count s))
    ∧ (Forall (Mosaic.within (Mosaic.getResponsiveGridSize count s)) p →
       count ≤ Mosaic.getResponsiveGridSize count s
               * Mosaic.getResponsiveGridSize count s).
Proof.
  intros Hc.
  pose proof (getResponsiveGridSize_bounds count s Hc) as [Hg _]. simpl in Hg.
  destruct (decide (count ≤ 3 ∧ count ≠ 0)) as [Hsmall|Hbig].
  - destruct (generateMosaicLayout_spec count s σ Hc)
      as (p & σ' & Hrun & _ & _ & Hplaced & Hrows).
    exists p, σ'. split; [done|]. split.
    + intros Hnt. specialize (Hplaced Hnt). specialize (Hrows ltac:(lia)).
      rewrite Forall_forall in Hplaced, Hrows. split.
      * intros _ l Hl. apply Hrows. apply last_Some in Hl as [p' ->].
        apply elem_of_app. right. by apply list_elem_of_singleton.
      * intros _. apply Forall_forall. intros l Hl.
        apply (placed_within _ l (Hplaced l Hl)). by apply Hrows.
    + intros _. destruct s; nia.
  - destruct (generateMosaicLayout_loop count s σ ltac:(lia))
      as (σ' & Hrun & HI & HI2 & _ & Hlen).
    set (g := Mosaic.getResponsiveGridSize count s) in *.
    exists (Mosaic.layouts σ'), σ'. split; [done|].
    pose proof (inv_placed _ _ HI) as Hplaced. rewrite Forall_forall in Hplaced.
    assert (Forall (Mosaic.within g) (Mosaic.layouts σ') →
            ∀ l, last (Mosaic.layouts σ') = Some l → Mosaic.row l ≤ g) as Hfwd.
    { intros Hin l Hl. rewrite Forall_forall in Hin.
      assert (l ∈ Mosaic.layouts σ') as Hmem.
      { apply last_Some in Hl as [p' ->]. apply elem_of_app. right.
        by apply list_elem_of_singleton. }
      destruct (placed_col_range g l (Hplaced l Hmem)) as (_ & _ & Hcov).
      apply (Hin l Hmem) in Hcov. lia. }
    split.
    + intros _. split; [exact Hfwd|].
      intros Hlast. apply Forall_forall. intros l Hl.
      apply (placed_within g l (Hplaced l Hl)).
      destruct (last (Mosaic.layouts σ')) as [ll|] eqn:Hll.
      2: { apply last_None in Hll. rewrite Hll in Hl. by apply elem_of_nil in Hl. }
      specialize (Hlast ll eq_refl).
      apply list_elem_of_lookup in Hl as [i Hi].
      rewrite last_lookup in Hll.
      destruct (decide (i = pred (length (Mosaic.layouts σ')))) as [->|Hne].
      * by assert (l = ll) as -> by congruence.
      * assert (anchor_before l ll) as Hb.
        { apply (anchor_lin_before g); [by apply Hplaced; eapply list_elem_of_lookup_2..|].
          eapply (inv2_sorted _ _ _ HI2); [exact Hi|exact Hll|].
          apply lookup_lt_Some in Hi. lia. }
        unfold anchor_before in Hb. lia.
    + intros Hin. specialize (Hfwd Hin).
      destruct (last (Mosaic.layouts σ')) as [ll|] eqn:Hll.
      2: { apply last_None in Hll. rewrite Hll in Hlen. simpl in Hlen. nia. }
      specialize (Hfwd ll eq_refl). rewrite last_lookup in Hll.
      destruct (lookup_lt_is_Some_2 (Mosaic.layouts σ') 0) as [l0 Hl0].
      { apply lookup_lt_Some in Hll. lia. }
      pose proof (increasing_lower_bound (anchor_lin g) (Mosaic.layouts σ')
                    (inv2_sorted _ _ _ HI2) _ l0 ll Hl0 Hll) as Hlow.
      destruct (placed_col_range g l0 (Hplaced l0 ltac:(by eapply list_elem_of_lookup_2)))
        as (? & ? & _).
      destruct (placed_col_range g ll (Hplaced ll ltac:(by eapply list_elem_of_lookup_2)))
        as (? & ? & _).
      unfold anchor_lin in Hlow. nia.
Qed.

Lemma mosaic_fits_iff_last_anchor_inside_witness :
  ∃ p σ', Mosaic.generateMosaicLayout 40 Mosaic.desktop Mosaic.no_locals = Some (p, σ')
    ∧ (Forall (Mosaic.within (Mosaic.getResponsiveGridSize 40 Mosaic.desktop)) p →
       40 ≤ Mosaic.getResponsiveGridSize 40 Mosaic.desktop
            * Mosaic.getResponsiveGridSize 40 Mosaic.desktop).
Proof.
  destruct (mosaic_fits_iff_last_anchor_inside 40 Mosaic.desktop Mosaic.no_locals
              ltac:(lia)) as (p & σ' & Hrun & _ & Hfit).
  exists p, σ'. split; [exact Hrun|exact Hfit].
Defined.

(** X16: from four photos on the plan leaves no hole behind: every grid
    cell that comes, in reading order, at or before the anchor of the last
    placement is covered by exactly one placement. *)
Theorem mosaic_no_hole_before_last (count : Z) (s : Mosaic.ScreenSize)
    (σ : Mosaic.Locals) :
  4 ≤ count →
  ∃ p σ', Mosaic.generateMosaicLayout count s σ = Some (p, σ')
    ∧ ∀ l r c, last p = Some l →
        1 ≤ r → 1 ≤ c ≤ Mosaic.getResponsiveGridSize count s →
        r < Mosaic.row l ∨ (r = Mosaic.row l ∧ c ≤ Mosaic.col l) →
        ∃ (i : nat) l', p !! i = Some l' ∧ Mosaic.covers l' r c
          ∧ ∀ (j : nat) l'', p !! j = Some l'' → Mosaic.covers l'' r c → j = i.
Proof.
  intros Hc.
  destruct (generateMosaicLayout_loop count s σ ltac:(lia))
    as (σ' & Hrun & HI & HI2 & Hlast & Hlen).
  set (g := Mosaic.getResponsiveGridSize count s) in *.
  exists (Mosaic.layouts σ'), σ'. split; [done|].
  intros l r c Hl Hr Hcol Hbefore.
  pose proof (inv_placed _ _ HI) as Hplaced. rewrite Forall_forall in Hplaced.
  assert (l ∈ Mosaic.layouts σ') as Hmem.
  { apply last_Some in Hl as [p' ->]. apply elem_of_app. right.
    by apply list_elem_of_singleton. }
  destruct (placed_col_range g l (Hplaced l Hmem)) as (_ & Hlc & _).
  assert (r * g + c < lin g σ') as Hlt.
  { rewrite (Hlast l Hl). unfold anchor_lin. nia. }
  destruct (inv2_covered _ _ _ HI2 _ (inv2_filled _ _ _ HI2 r c Hr Hcol Hlt))
    as (l' & r' & c' & Hin & Hcov & Hr' & Hkey).
  apply cellKey_inj in Hkey as [<- <-]; [|lia..].
  apply list_elem_of_lookup in Hin as [i Hi].
  exists i, l'. split; [done|]. split; [done|].
  intros j l'' Hj Hcov'. destruct (decide (j = i)) as [|Hne]; [done|].
  by destruct (inv_disjoint _ _ HI j i l'' l' Hj Hi Hne r c).
Qed.

Lemma mosaic_no_hole_before_last_witness :
  ∃ p σ', Mosaic.generateMosaicLayout 6 Mosaic.tablet Mosaic.no_locals = Some (p, σ')
    ∧ ∀ l r c, last p = Some l →
        1 ≤ r → 1 ≤ c ≤ Mosaic.getResponsiveGridSize 6 Mosaic.tablet →
        r < Mosaic.row l ∨ (r = Mosaic.row l ∧ c ≤ Mosaic.col l) →
        ∃ (i : nat) l', p !! i = Some l' ∧ Mosaic.covers l' r c
          ∧ ∀ (j : nat) l'', p !! j = Some l'' → Mosaic.covers l'' r c → j = i.
Proof.
  exact (mosaic_no_hole_before_last 6 Mosaic.tablet Mosaic.no_locals ltac:(lia)).
Defined.

Lemma first_iteration (g : Z) (patterns : list Mosaic.Pattern) (p0 : Mosaic.Pattern) :
  2 ≤ g → patterns !! 0%nat = Some p0 →
  1 ≤ Mosaic.p_rowSpan p0 ≤ 2 → 1 ≤ Mosaic.p_colSpan p0 ≤ 2 →
  ∃ σ1, Mosaic.iteration g patterns 0 (Mosaic.mkLocals [] 1 1 ∅) = Some σ1
        ∧ Mosaic.layouts σ1
          = [ Mosaic.mkLayout (Mosaic.p_size p0) 1 1
                (Mosaic.p_rowSpan p0) (Mosaic.p_colSpan p0) ].
Proof.
  intros Hg Hp0 Hrs Hcs. unfold Mosaic.iteration.
  replace (Z.to_nat (Z.rem 0 (Z.of_nat (length patterns)))) with 0%nat
    by (by destruct (Z.of_nat (length patterns))).
  rewrite Hp0. simpl.
  unfold Mosaic.skip_occupied. rewrite decide_False by apply not_elem_of_empty.
  simpl. eexists. split; [done|].
  unfold Mosaic.place. simpl.
  replace (g <? 1 + Mosaic.p_rowSpan p0 - 1) with false by lia.
  replace (g <? 1 + Mosaic.p_colSpan p0 - 1) with false by lia. simpl.
  assert (Mosaic.canFit ∅ 1 (1 + Mosaic.p_rowSpan p0 - 1) 1 (1 + Mosaic.p_colSpan p0 - 1)
          = true) as ->.
  { unfold Mosaic.canFit. apply forallb_forall. intros rc _.
    apply bool_decide_eq_true. apply not_elem_of_empty. }
  rewrite advance_layouts. unfold Mosaic.mark. by rewrite mark_fold.
Qed.

(** X17: from four photos on, photo [i] is placed either with the pattern
    at position [i mod n] of the list of [n] patterns of the viewport class
    (size name and spans) or as a ['small'] single cell; and the first photo
    always gets the first pattern of the list, anchored at (1, 1): the large
    2 x 2 cell, or on a mobile viewport the medium 1 x 2 cell. *)
Theorem mosaic_shapes (count : Z) (s : Mosaic.ScreenSize) (σ : Mosaic.Locals) :
  4 ≤ count →
  ∃ p σ', Mosaic.generateMosaicLayout count s σ = Some (p, σ')
    ∧ (∀ (i : nat) l, p !! i = Some l → shape_ok (patterns_of s) i l)
    ∧ p !! 0%nat
      = Some (if bool_decide (s = Mosaic.mobile) then Mosaic.mkLayout "medium" 1 1 1 2
              else Mosaic.mkLayout "large" 1 1 2 2).
Proof.
  intros Hc.
  destruct (generateMosaicLayout_loop count s σ ltac:(lia))
    as (σ' & Hrun & HI & HI2 & Hlast & Hlen).
  exists (Mosaic.layouts σ'), σ'. split; [done|]. split; [apply HI2|].
  pose proof (getResponsiveGridSize_bounds count s ltac:(lia)) as [Hg _]. simpl in Hg.
  set (g := Mosaic.getResponsiveGridSize count s) in *.
  assert (2 ≤ g) as Hg2 by (destruct s; lia).
  destruct (patterns_positive s) as [Hpos Hne]. fold (patterns_of s) in Hpos, Hne.
  assert (∃ p0, patterns_of s !! 0%nat = Some p0
                ∧ 1 ≤ Mosaic.p_rowSpan p0 ≤ 2 ∧ 1 ≤ Mosaic.p_colSpan p0 ≤ 2
                ∧ Mosaic.mkLayout (Mosaic.p_size p0) 1 1
                    (Mosaic.p_rowSpan p0) (Mosaic.p_colSpan p0)
                  = (if bool_decide (s = Mosaic.mobile)
                     then Mosaic.mkLayout "medium" 1 1 1 2
                     else Mosaic.mkLayout "large" 1 1 2 2)) as (p0 & Hp0 & Hrs & Hcs & Heq).
  { unfold patterns_of. case_bool_decide; eexists; (split; [reflexivity|]); simpl;
      (split; [lia|]); (split; [lia|done]). }
  destruct (first_iteration g (patterns_of s) p0 Hg2 Hp0 Hrs Hcs) as (σ1 & Hit & Hl1).
  assert (1 ≤ g) as Hg1 by lia.
  destruct (Inv2_initial g (patterns_of s)) as [HI20 Hlast0].
  destruct (iteration_inv g Hg1 (patterns_of s) 0 _ (Inv_initial g Hg1) Hpos Hne
              ltac:(lia)) as (σ1' & l1 & Hit' & HI1 & _).
  assert (σ1' = σ1) as -> by congruence.
  destruct (iteration_inv2 g Hg1 (patterns_of s) Hpos Hne _ σ1 (Inv_initial g Hg1) HI20 Hit)
    as [HI21 Hlast1].
  destruct (for_photos_inv2 g Hg1 (patterns_of s) Hpos Hne (Z.to_nat count - 1) σ1
              HI1 HI21 Hlast1) as (σ2 & Hrun2 & _ & _ & _ & _ & Hpre).
  assert (Mosaic.generateMosaicLayout count s σ = Some (Mosaic.layouts σ2, σ2)) as Hrun'.
  { unfold Mosaic.generateMosaicLayout.
    replace (count =? 1) with false by lia.
    replace (count =? 2) with false by lia.
    replace (count =? 3) with false by lia.
    rewrite !andb_false_r. cbv zeta. fold g. fold (patterns_of s).
    change (Mosaic.set_occupiedCells ∅ _) with (Mosaic.mkLocals [] 1 1 ∅).
    replace (Z.to_nat count) with (S (Z.to_nat count - 1)) by lia.
    unfold Mosaic.for_photos; fold Mosaic.for_photos. rewrite Hit. simpl.
    rewrite Hl1 in Hrun2. change (Z.of_nat (length _)) with (0 + 1) in Hrun2.
    by rewrite Hrun2. }
  rewrite Hrun in Hrun'. injection Hrun' as Heq' _. rewrite Heq'.
  rewrite Hl1 in Hpre. destruct Hpre as [rest ->]. simpl. by rewrite Heq.
Qed.

Lemma mosaic_shapes_witness :
  ∃ p σ', Mosaic.generateMosaicLayout 5 Mosaic.mobile Mosaic.no_locals = Some (p, σ')
    ∧ (∀ (i : nat) l, p !! i = Some l → shape_ok (patterns_of Mosaic.mobile) i l)
    ∧ p !! 0%nat = Some (Mosaic.mkLayout "medium" 1 1 1 2).
Proof.
  exact (mosaic_shapes 5 Mosaic.mobile Mosaic.no_locals ltac:(lia)).
Defined.

(** ** Rendering the mosaic *)

(** X18: every photo of the collection is rendered: [mosaicLayout[index]]
    is never missing, so no photo is dropped as [null]; the element at
    position [k] is keyed by the id of photo [k], shows its source, and is
    given the grid area of placement [k] of the plan. *)
Theorem render_every_photo (photos : list Photo) (s : Mosaic.ScreenSize)
    (σ : Mosaic.Locals) :
  ∃ p rendered,
    Mosaic.plan (Z.of_nat (length photos)) s σ = Some p
    ∧ Mosaic.render_photos photos s σ = Some rendered
    ∧ length rendered = length photos
    ∧ ∀ (k : nat) photo, photos !! k = Some photo →
        ∃ layout, p !! k = Some layout
          ∧ rendered !! k
            = Some (Some (Mosaic.mkItem (id photo)
                            ("photo-item " +:+ orientation photo +:+ " size-"
                             +:+ Mosaic.size layout)
                            (Mosaic.getGridPosition (Z.of_nat k) layout) (src photo))).
Proof.
  destruct (generateMosaicLayout_spec (Z.of_nat (length photos)) s σ ltac:(lia))
    as (p & σ' & Hrun & Hlen & _).
  rewrite Nat2Z.id in Hlen.
  exists p, (imap (Mosaic.render_photo p) photos).
  unfold Mosaic.plan, Mosaic.render_photos. rewrite Hrun. simpl.
  split; [done|]. split; [done|]. split; [apply length_imap|].
  intros k photo Hk.
  destruct (lookup_lt_is_Some_2 p k) as [layout Hl].
  { rewrite Hlen. by eapply lookup_lt_Some. }
  exists layout. split; [done|].
  rewrite list_lookup_imap, Hk. simpl. unfold Mosaic.render_photo. by rewrite Hl.
Qed.

Lemma pretty_N_go_spaceless (x : N) (s : string) :
  spaceless s → spaceless (pretty_N_go x s).
Proof.
  revert s. induction (N.lt_wf_0 x) as [x _ IH]; intros s Hs.
  destruct (decide (x = 0)%N) as [->|Hx]; [by rewrite pretty_N_go_0|].
  rewrite pretty_N_go_step by lia. apply IH; [apply N.div_lt; lia|].
  split; [|done]. unfold pretty_N_char. by repeat case_match.
Qed.

Lemma pretty_Z_spaceless (z : Z) : spaceless (pretty z).
Proof.
  assert (∀ p : positive, spaceless (pretty p)) as Hpos.
  { intros p. unfold pretty, pretty_positive, pretty, pretty_N.
    case_decide; [done|]. by apply pretty_N_go_spaceless. }
  destruct z as [|p|p]; [done|apply Hpos|].
  unfold pretty, pretty_Z. change ("-" +:+ pretty p) with (String "-" (pretty p)).
  split; [done|apply Hpos].
Qed.

Lemma spaceless_split (d1 d2 e1 e2 : string) :
  spaceless d1 → spaceless d2 →
  d1 +:+ " / " +:+ e1 = d2 +:+ " / " +:+ e2 → d1 = d2 ∧ e1 = e2.
Proof.
  change (" / " +:+ e1) with (String " " (String "/" (String " " e1))).
  change (" / " +:+ e2) with (String " " (String "/" (String " " e2))).
  revert d2. induction d1 as [|a d1 IH]; intros [|b d2]; cbn.
  - intros _ _ [= ->]. done.
  - intros _ [Hb _] [= <- _]. done.
  - intros [Ha _] _ [= -> _]. done.
  - intros [_ H1] [_ H2] [= -> Heq]. destruct (IH d2 H1 H2 Heq) as [-> ->]. done.
Qed.

Lemma getGridPosition_area_inj (i j : Z) (l l' : Mosaic.Layout) :
  Mosaic.getGridPosition i l = Mosaic.getGridPosition j l' →
  Mosaic.row l = Mosaic.row l' ∧ Mosaic.rowSpan l = Mosaic.rowSpan l'
  ∧ Mosaic.col l = Mosaic.col l' ∧ Mosaic.colSpan l = Mosaic.colSpan l'.
Proof.
  unfold Mosaic.getGridPosition. intros [= Hr Hc].
  apply spaceless_split in Hr as [Hr1 Hr2]; [|apply pretty_Z_spaceless..].
  apply spaceless_split in Hc as [Hc1 Hc2]; [|apply pretty_Z_spaceless..].
  apply (inj pretty) in Hr1, Hr2, Hc1, Hc2. lia.
Qed.

(** X19: the grid-line strings of [getGridPosition] determine the rectangle
    of a placement (anchor and spans), whatever the index; and in every plan
    two different photos get different grid areas, so no photo is stacked
    exactly on another. *)
Theorem mosaic_areas_distinct (count : Z) (s : Mosaic.ScreenSize) (σ : Mosaic.Locals) :
  0 ≤ count →
  (∀ i j l l', Mosaic.getGridPosition i l = Mosaic.getGridPosition j l' →
     Mosaic.row l = Mosaic.row l' ∧ Mosaic.rowSpan l = Mosaic.rowSpan l'
     ∧ Mosaic.col l = Mosaic.col l' ∧ Mosaic.colSpan l = Mosaic.colSpan l')
  ∧ ∃ p σ', Mosaic.generateMosaicLayout count s σ = Some (p, σ')
      ∧ ∀ (i j : nat) li lj, p !! i = Some li → p !! j = Some lj → i ≠ j →
          Mosaic.getGridPosition (Z.of_nat i) li ≠ Mosaic.getGridPosition (Z.of_nat j) lj.
Proof.
  intros Hc. split; [apply getGridPosition_area_inj|].
  destruct (generateMosaicLayout_spec count s σ Hc)
    as (p & σ' & Hrun & Hlen & Hdisj & Hplaced & _).
  exists p, σ'. split; [done|]. intros i j li lj Hi Hj Hne Heq.
  apply getGridPosition_area_inj in Heq as (Hr & Hrs & Hcl & Hcs).
  assert (count = 1 → s ≠ Mosaic.tablet) as Hnt.
  { intros -> _. simpl in Hlen. apply lookup_lt_Some in Hi, Hj.
    rewrite Hlen in Hi, Hj. lia. }
  specialize (Hplaced Hnt). rewrite Forall_forall in Hplaced.
  destruct (placed_col_range _ li (Hplaced li ltac:(by eapply list_elem_of_lookup_2)))
    as (_ & _ & Hcov).
  apply (Hdisj i j li lj Hi Hj Hne (Mosaic.row li) (Mosaic.col li)).
  split; [done|]. unfold Mosaic.covers in *. lia.
Qed.

Lemma mosaic_areas_distinct_witness :
  ∃ p σ', Mosaic.generateMosaicLayout 3 Mosaic.tablet Mosaic.no_locals = Some (p, σ')
    ∧ ∀ (i j : nat) li lj, p !! i = Some li → p !! j = Some lj → i ≠ j →
        Mosaic.getGridPosition (Z.of_nat i) li ≠ Mosaic.getGridPosition (Z.of_nat j) lj.
Proof.
  exact (proj2 (mosaic_areas_distinct 3 Mosaic.tablet Mosaic.no_locals ltac:(lia))).
Defined.

(** ** Closed forms *)

(** X20: the responsive grid size as thresholds on the photo count: on
    mobile 2 up to four photos and 3 beyond; on a tablet 3 up to nine photos
    and 4 beyond; on a laptop 4 up to thirteen photos and 5 beyond; on a
    desktop 4 up to ten photos, 5 up to sixteen and 6 beyond. *)
Theorem getResponsiveGridSize_thresholds (count : Z) :
  0 ≤ count →
  (Mosaic.getResponsiveGridSize count Mosaic.mobile = 2 ↔ count ≤ 4)
  ∧ (Mosaic.getResponsiveGridSize count Mosaic.mobile = 3 ↔ 5 ≤ count)
  ∧ (Mosaic.getResponsiveGridSize count Mosaic.tablet = 3 ↔ count ≤ 9)
  ∧ (Mosaic.getResponsiveGridSize count Mosaic.tablet = 4 ↔ 10 ≤ count)
  ∧ (Mosaic.getResponsiveGridSize count Mosaic.laptop = 4 ↔ count ≤ 13)
  ∧ (Mosaic.getResponsiveGridSize count Mosaic.laptop = 5 ↔ 14 ≤ count)
  ∧ (Mosaic.getResponsiveGridSize count Mosaic.desktop = 4 ↔ count ≤ 10)
  ∧ (Mosaic.getResponsiveGridSize count Mosaic.desktop = 5 ↔ 11 ≤ count ≤ 16)
  ∧ (Mosaic.getResponsiveGridSize count Mosaic.desktop = 6 ↔ 17 ≤ count).
Proof.
  intros Hc. rewrite !getResponsiveGridSize_steps by done.
  repeat split; intros; repeat case_match; lia.
Qed.

Lemma getResponsiveGridSize_thresholds_witness :
  Mosaic.getResponsiveGridSize 14 Mosaic.laptop = 5 ↔ 14 ≤ 14.
Proof. apply (getResponsiveGridSize_thresholds 14). lia. Defined.

(** X21: the scan at the head of an iteration stops on the first free cell
    in reading order at or after the cursor: it leaves the plan and the
    occupancy set as they are, the cell it stops on is free, and every cell
    of the grid columns between the cursor and that cell is occupied. *)
Theorem skip_occupied_first_free (g : Z) (σ : Mosaic.Locals) :
  1 ≤ g → cursor_ok g σ →
  ∃ σ1, Mosaic.skip_occupied (S (size (Mosaic.occupiedCells σ))) g σ = Some σ1
        ∧ Mosaic.layouts σ1 = Mosaic.layouts σ
        ∧ Mosaic.occupiedCells σ1 = Mosaic.occupiedCells σ
        ∧ cursor_ok g σ1
        ∧ (Mosaic.cellKey (Mosaic.currentRow σ1) (Mosaic.currentCol σ1)
             ∉ Mosaic.occupiedCells σ)
        ∧ ∀ r c, 1 ≤ c ≤ g → lin g σ ≤ r * g + c < lin g σ1 →
            Mosaic.cellKey r c ∈ Mosaic.occupiedCells σ.
Proof.
  intros Hg Hok.
  destruct (skip_occupied_total g Hg σ Hok) as (σ1 & Hrun & Hl & Ho & Hok1 & Hfree).
  exists σ1. split; [done|]. split; [done|]. split; [done|]. split; [done|].
  split; [by rewrite <- Ho|].
  by destruct (skip_occupied_passes g Hg _ σ σ1 Hok Hrun) as [_ Hpassed].
Qed.

Lemma skip_occupied_first_free_witness :
  ∃ σ1, Mosaic.skip_occupied 3 4
          (Mosaic.mkLocals [] 1 4 {[ Mosaic.cellKey 1 4; Mosaic.cellKey 2 1 ]})
        = Some σ1
        ∧ Mosaic.currentRow σ1 = 2 ∧ Mosaic.currentCol σ1 = 2.
Proof.
  assert (cursor_ok 4
            (Mosaic.mkLocals [] 1 4 {[ Mosaic.cellKey 1 4; Mosaic.cellKey 2 1 ]})) as Hok
    by (unfold cursor_ok; simpl; lia).
  assert (1 ≤ 4) as Hg by lia.
  destruct (skip_occupied_first_free 4 _ Hg Hok) as (σ1 & Hrun & _).
  exists σ1. split; [exact Hrun|].
  vm_compute in Hrun. injection Hrun as <-. split; reflexivity.
Defined.
